(** * Senate web scraper: the table builder, the graph list builder and
      the link selection of [web-scraper.py], embedded in Rocq.

    Python values are modelled as follows.
    - A label, whose characters are classified and compared, is a [str]:
      the list of its code points. Keys of objects, hrefs and URLs, of
      which only equality and the first character are used, are
      [string]s.
    - [str.isdigit] and [int] consult the character database of the
      interpreter, which is no part of the program: it is a parameter
      ([CharDB]), of which only its ASCII part and the relation of its
      three tables are assumed. [int] is the one of CPython 3.6 to 3.10.
    - An exception is a value of [exn]; a computation that may raise
      returns a [result].
    - [set(...)] is iterated in an order that depends on the hashes of
      the process: the order is a parameter ([HashOrder]) of every
      function that iterates over a set.
    - [sorted(..., key=...)] computes every key first, then sorts stably
      using [<] on the keys only.
    - [pd.DataFrame.from_records] infers a type for every column and may
      convert cells that are numbers, booleans, [None] or strings it
      reads as dates; what it does to a table is a parameter ([Pandas]),
      of which only the number and order of the rows, the column of the
      lists and the columns of strings that are no dates are assumed. *)

From Stdlib Require Import List String Ascii ZArith NArith Bool Lia.
From Stdlib Require Import Permutation Sorted.
Import ListNotations.
Open Scope string_scope.
Open Scope list_scope.

(** ** Strings *)

Definition str : Type := list N.

(** The [str] of a literal of ASCII characters. *)
Definition u (s : string) : str := map N_of_ascii (list_ascii_of_string s).

(** [a == b] *)
Fixpoint str_eqb (a b : str) : bool :=
  match a, b with
  | [], [] => true
  | c :: a', d :: b' => (c =? d)%N && str_eqb a' b'
  | _, _ => false
  end.

(** The comparison of two strings, code point by code point. *)
Fixpoint str_compare (a b : str) : comparison :=
  match a, b with
  | [], [] => Eq
  | [], _ :: _ => Lt
  | _ :: _, [] => Gt
  | c :: a', d :: b' =>
      match (c ?= d)%N with
      | Eq => str_compare a' b'
      | r => r
      end
  end.

(** [a < b] *)
Definition str_ltb (a b : str) : bool :=
  match str_compare a b with
  | Lt => true
  | _ => false
  end.

Definition str_dec : forall a b : str, {a = b} + {a <> b} :=
  list_eq_dec N.eq_dec.

(** [item.partition(' ')[0]]: the text before the first space, the whole
    string when it has none. *)
Fixpoint partition_head (item : str) : str :=
  match item with
  | [] => []
  | c :: rest => if (c =? 32)%N then [] else c :: partition_head rest
  end.

(** ** Exceptions and results *)

Inductive exn : Type :=
| IndexError                          (* [item[0]] on an empty string *)
| ValueError_int (tok : str)          (* [int(tok)] on a bad literal *)
| ValueError_index (x : str)          (* [list.index(x)], x absent *)
| KeyError (k : string)               (* [d[k]], key absent *)
| KeyError_pos (i : nat)              (* [d[i]] or [.ix[i, _]], i absent *)
| TypeError                           (* subscript or [len] of a wrong type *)
| ConnectionError (url : string)      (* [requests.get(url)] failed *)
| JSONDecodeError.                    (* [json.loads] of an invalid body *)

Inductive result (A : Type) : Type :=
| Ok (a : A)
| Err (e : exn).
Arguments Ok {A} a.
Arguments Err {A} e.

Definition bind {A B} (m : result A) (k : A -> result B) : result B :=
  match m with
  | Ok a => k a
  | Err e => Err e
  end.

Notation "x <- m ;; k" := (bind m (fun x => k))
  (at level 61, m at next level, right associativity).

Fixpoint mapM {A B} (f : A -> result B) (l : list A) : result (list B) :=
  match l with
  | [] => Ok []
  | a :: l' => b <- f a ;; bs <- mapM f l' ;; Ok (b :: bs)
  end.

(** ** JSON values and the table builder *)

(** What [json.loads] returns: [None], a [bool], a number (kept as its
    literal), a [str], a [list] or a [dict] with string keys. *)
#[warnings="-register-all"] Inductive json : Type :=
| JNull
| JBool (b : bool)
| JNum (literal : string)
| JStr (s : string)
| JArr (items : list json)
| JObj (fields : list (string * json)).

Fixpoint assoc (k : string) (fields : list (string * json)) : option json :=
  match fields with
  | [] => None
  | (k', v) :: rest => if String.eqb k' k then Some v else assoc k rest
  end.

(** [v[k]] for a string [k]. *)
Definition getitem (v : json) (k : string) : result json :=
  match v with
  | JObj fields =>
      match assoc k fields with
      | Some x => Ok x
      | None => Err (KeyError k)
      end
  | _ => Err TypeError
  end.

(** [len(v)] *)
Definition py_len (v : json) : result nat :=
  match v with
  | JArr items => Ok (List.length items)
  | JObj fields => Ok (List.length fields)
  | JStr s => Ok (String.length s)
  | _ => Err TypeError
  end.

(** [v[i]] for an integer [i >= 0]; the keys of a [dict] are strings. *)
Definition getitem_pos (v : json) (i : nat) : result json :=
  match v with
  | JArr items =>
      match nth_error items i with
      | Some x => Ok x
      | None => Err IndexError
      end
  | JObj _ => Err (KeyError_pos i)
  | JStr s =>
      match String.get i s with
      | Some c => Ok (JStr (String c EmptyString))
      | None => Err IndexError
      end
  | _ => Err TypeError
  end.

(** One row of a table: the sponsor, the list of the co-sponsors, the
    bill. *)
Definition json_row : Type := (json * list json * json)%type.

Definition sponsor_cell (r : json_row) : json := fst (fst r).
Definition cosponsor_cell (r : json_row) : list json := snd (fst r).
Definition bill_cell (r : json_row) : json := snd r.

(** [pd.DataFrame.from_records(rows, columns=...)], which is no part of
    the program: the table it makes of the rows it is given, a converted
    cell being written as the value it has become. It infers a
    type for every column: it may convert a column of numbers, booleans
    or [None], and a column of strings that it reads as dates
    ([datelike]: which strings these are, if any, depends on the version
    of pandas). It keeps the number and the order of the rows; it keeps
    the column of the lists; and it keeps a column all of whose cells
    are strings that are no dates. *)
Record Pandas : Type := {
  from_records : list json_row -> list json_row;
  datelike : string -> bool;
  from_records_length :
    forall t, List.length (from_records t) = List.length t;
  from_records_lists :
    forall t, map cosponsor_cell (from_records t) = map cosponsor_cell t;
  from_records_sponsors :
    forall t,
      Forall (fun v => exists s, v = JStr s /\ datelike s = false)
             (map sponsor_cell t) ->
      map sponsor_cell (from_records t) = map sponsor_cell t;
  from_records_bills :
    forall t,
      Forall (fun v => exists s, v = JStr s /\ datelike s = false)
             (map bill_cell t) ->
      map bill_cell (from_records t) = map bill_cell t
}.

(** A cell that is a string and no date. *)
Definition plain_text (p : Pandas) (v : json) : Prop :=
  exists s, v = JStr s /\ datelike p s = false.

(** A [Pandas] that converts no cell. *)
Definition object_frames : Pandas := {|
  from_records := fun t => t;
  datelike := fun _ => false;
  from_records_length := fun t => eq_refl;
  from_records_lists := fun t => eq_refl;
  from_records_sponsors := fun t _ => eq_refl;
  from_records_bills := fun t _ => eq_refl
|}.

(** The cells of a column that can be made a column of floats. *)
Definition number_or_null (v : json) : bool :=
  match v with
  | JNum _ | JNull => true
  | _ => false
  end.

Definition is_number (v : json) : bool :=
  match v with
  | JNum _ => true
  | _ => false
  end.

Definition null_to_nan (v : json) : json :=
  match v with
  | JNull => JNum "NaN"
  | _ => v
  end.

Definition float_bills (t : list json_row) : list json_row :=
  if forallb (fun r => number_or_null (bill_cell r)) t
     && existsb (fun r => is_number (bill_cell r)) t
  then map (fun r => (fst r, null_to_nan (snd r))) t
  else t.

(** A [Pandas] that converts: a bill column of numbers and [None], with
    a number in it, becomes a column of floats, in which [None] is NaN. *)
Definition float_frames : Pandas.
Proof.
  refine {| from_records := float_bills; datelike := fun _ => false |};
    intros t; unfold float_bills;
    destruct (forallb (fun r => number_or_null (bill_cell r)) t
              && existsb (fun r => is_number (bill_cell r)) t);
    try reflexivity.
  - apply length_map.
  - rewrite map_map. reflexivity.
  - intros _. rewrite map_map. reflexivity.
  - intros H. rewrite map_map. apply map_ext_in. intros r Hr.
    rewrite Forall_forall in H.
    destruct (H (bill_cell r)) as (s & Hs & _); [ now apply in_map | ].
    unfold bill_cell in *. simpl. now rewrite Hs.
Defined.

(** [r["cosponsors"][i]["name"]] *)
Definition cosponsor_name_at (r : json) (i : nat) : result json :=
  cosponsors <- getitem r "cosponsors" ;;
  c <- getitem_pos cosponsors i ;;
  getitem c "name".

(** [(r["sponsor"]["name"],
      [r["cosponsors"][i]["name"] for i in range(len(r["cosponsors"]))],
      r["bill_id"])] *)
Definition record_row (r : json) : result json_row :=
  sponsor <- getitem r "sponsor" ;;
  sponsor_name <- getitem sponsor "name" ;;
  cosponsors <- getitem r "cosponsors" ;;
  n <- py_len cosponsors ;;
  names <- mapM (cosponsor_name_at r) (seq 0 n) ;;
  bill <- getitem r "bill_id" ;;
  Ok (sponsor_name, names, bill).

(** [pd.DataFrame.from_records((... for r in rows), columns=...)]: the
    generator is consumed in order, then the table is made. *)
Definition filter_json_to_frame (p : Pandas) (rows : list json)
  : result (list json_row) :=
  t <- mapM record_row rows ;; Ok (from_records p t).

(** ** The fetcher *)

Definition startswith_s (x : string) : bool :=
  match x with
  | String c _ => Ascii.eqb c "s"
  | EmptyString => false
  end.

Definition index_url : string :=
  "https://www.govtrack.us/data/congress/113/bills/s/".

(** ["http://www.govtrack.us/data/congress/113/bills/s/{}data.json"
       .format(vote_href)] *)
Definition record_url (vote_href : string) : string :=
  String.append "http://www.govtrack.us/data/congress/113/bills/s/"
    (String.append vote_href "data.json").

(** [for tag in tags: x = tag.get("href", None);
                      if x.startswith('s'): links.append(x)] *)
Fixpoint select_links (hrefs links : list string) : list string :=
  match hrefs with
  | [] => links
  | x :: rest =>
      if startswith_s x then select_links rest (links ++ [x])
      else select_links rest links
  end.

Section Fetcher.
(** The network: a request changes the world and yields the body or
    fails. The HTML parser and [json.loads] are functions of the text. *)
Variable World : Type.
Variable requests_get_text : string -> World -> result string * World.
Variable findAll_a_href : string -> list string.
Variable json_loads : string -> result json.

(** The state threaded through the fetcher: the world and the list of
    the URLs requested so far. *)
Definition net_state : Type := (World * list string)%type.
Definition net (A : Type) : Type := net_state -> result A * net_state.

Definition net_ret {A} (a : A) : net A := fun st => (Ok a, st).

Definition net_bind {A B} (m : net A) (k : A -> net B) : net B :=
  fun st =>
    match m st with
    | (Ok a, st') => k a st'
    | (Err e, st') => (Err e, st')
    end.

Definition net_lift {A} (r : result A) : net A := fun st => (r, st).

Definition http_get (url : string) : net string :=
  fun st =>
    let (body, w') := requests_get_text url (fst st) in
    (body, (w', snd st ++ [url])).

Definition get_single_vote (vote_href : string) : net json :=
  net_bind (http_get (record_url vote_href))
    (fun page => net_lift (json_loads page)).

(** [[get_single_vote(link) for link in links]] *)
Fixpoint get_votes (links : list string) : net (list json) :=
  match links with
  | [] => net_ret []
  | link :: rest =>
      net_bind (get_single_vote link) (fun v =>
      net_bind (get_votes rest) (fun vs =>
      net_ret (v :: vs)))
  end.

Definition get_links : net (list json) :=
  net_bind (http_get index_url) (fun text =>
    let tags := findAll_a_href text in
    let links := select_links tags [] in
    get_votes (firstn 10 links)).
End Fetcher.

(** ** The main flow, up to the table *)

Section Main.
Variable World : Type.
Variable requests_get_text : string -> World -> result string * World.
Variable findAll_a_href : string -> list string.
Variable json_loads : string -> result json.

(** [vote_data = get_links(); p_data = filter_json_to_frame(vote_data)] *)
Definition vote_table (p : Pandas) : net World (list json_row) :=
  net_bind World
    (get_links World requests_get_text findAll_a_href json_loads)
    (fun vote_data => net_lift World (filter_json_to_frame p vote_data)).
End Main.

(** ** [int] of a text of ASCII characters *)

(** The characters the parser of integers skips at both ends: tab, line
    feed, vertical tab, form feed, carriage return and the space. *)
Definition Py_ISSPACE (c : N) : bool :=
  ((9 <=? c) && (c <=? 13) || (c =? 32))%N.

(** ['0'] to ['9']. *)
Definition ascii_digit (c : N) : bool := ((48 <=? c) && (c <=? 57))%N.

Definition digit_val (c : N) : Z := Z.of_N c - 48.

Fixpoint lstrip (l : list N) : list N :=
  match l with
  | c :: l' => if Py_ISSPACE c then lstrip l' else l
  | [] => []
  end.

Definition strip (l : list N) : list N :=
  rev (lstrip (rev (lstrip l))).

(** Decimal digits, single underscores (95) allowed between two digits. *)
Fixpoint int_digits (acc : Z) (after_digit : bool) (l : list N)
  : option Z :=
  match l with
  | [] => if after_digit then Some acc else None
  | c :: l' =>
      if ascii_digit c then int_digits (10 * acc + digit_val c) true l'
      else if (c =? 95)%N then
        if after_digit then int_digits acc false l' else None
      else None
  end.

(** The parser of integers in base 10: white space around, an optional
    sign ['+'] (43) or ['-'] (45), digits. *)
Definition long_from_string (l : list N) : option Z :=
  match strip l with
  | [] => None
  | c :: l' =>
      if (c =? 43)%N then int_digits 0 false l'
      else if (c =? 45)%N then option_map Z.opp (int_digits 0 false l')
      else int_digits 0 false (c :: l')
  end.

(** ** The character database *)

(** The tables behind [str.isdigit] and [int]: which characters are
    digits, which of them are decimal digits and of what value, and
    which are white space. Below 128 the tables are those of ASCII; a
    decimal digit has a value from 0 to 9, is a digit and is no white
    space. *)
Record CharDB : Type := {
  isdigit : N -> bool;
  decimal : N -> option Z;
  isspace : N -> bool;
  isdigit_ascii :
    forall c, (c < 128)%N -> isdigit c = ascii_digit c;
  decimal_ascii :
    forall c, (c < 128)%N ->
              decimal c = if ascii_digit c then Some (digit_val c) else None;
  isspace_ascii :
    forall c, (c < 128)%N ->
              isspace c = ((9 <=? c) && (c <=? 13) || (28 <=? c) && (c <=? 32))%N;
  decimal_value : forall c d, decimal c = Some d -> (0 <= d <= 9)%Z;
  decimal_isdigit : forall c d, decimal c = Some d -> isdigit c = true;
  decimal_not_space : forall c d, decimal c = Some d -> isspace c = false
}.

(** A character database for the examples: ASCII, the superscript
    digits and the two further spaces of Latin-1, and the Arabic-Indic
    digits. *)
Definition sample_isdigit (c : N) : bool :=
  (ascii_digit c || (c =? 178) || (c =? 179) || (c =? 185)
   || (1632 <=? c) && (c <=? 1641))%N.

Definition sample_decimal (c : N) : option Z :=
  if ascii_digit c then Some (digit_val c)
  else if ((1632 <=? c) && (c <=? 1641))%N then Some (Z.of_N c - 1632)%Z
  else None.

Definition sample_isspace (c : N) : bool :=
  ((9 <=? c) && (c <=? 13) || (28 <=? c) && (c <=? 32)
   || (c =? 133) || (c =? 160))%N.

Ltac table_cases :=
  unfold sample_isdigit, sample_decimal, sample_isspace, ascii_digit,
    digit_val in *;
  repeat match goal with
         | |- context [(?a <=? ?b)%N] => destruct (N.leb_spec a b)
         | |- context [(?a =? ?b)%N] => destruct (N.eqb_spec a b)
         | H : context [(?a <=? ?b)%N] |- _ => destruct (N.leb_spec a b)
         | H : context [(?a =? ?b)%N] |- _ => destruct (N.eqb_spec a b)
         end;
  simpl in *;
  repeat match goal with
         | H : Some _ = Some _ |- _ => inversion H; clear H
         end;
  try discriminate; try reflexivity; try lia.

Definition sample_db : CharDB.
Proof.
  refine {| isdigit := sample_isdigit;
            decimal := sample_decimal;
            isspace := sample_isspace |}.
  - intros c H. table_cases.
  - intros c H. table_cases.
  - intros c H. table_cases.
  - intros c d H. table_cases.
  - intros c d H. table_cases.
  - intros c d H. table_cases.
Defined.

(** ** Sets *)

(** The iteration order of [set(l)], as a function of the elements put
    into it: some enumeration of the distinct elements of [l]. *)
Record HashOrder : Type := {
  set_iter : list str -> list str;
  set_iter_NoDup : forall l, NoDup (set_iter l);
  set_iter_In : forall l x, In x (set_iter l) <-> In x l
}.

(** Two hash orders: the distinct elements as [nodup] lists them, and
    the same in reverse. *)
Definition nodup_order : HashOrder := {|
  set_iter := nodup str_dec;
  set_iter_NoDup := NoDup_nodup str_dec;
  set_iter_In := fun l x => nodup_In str_dec l x
|}.

Definition rev_nodup_order : HashOrder := {|
  set_iter := fun l => rev (nodup str_dec l);
  set_iter_NoDup := fun l => NoDup_rev (NoDup_nodup str_dec l);
  set_iter_In := fun l x =>
    iff_trans (iff_sym (in_rev (nodup str_dec l) x))
              (nodup_In str_dec l x)
|}.

(** ** The sort key of a label *)

(** First component of the key: an [int], or [float("inf")]. *)
Inductive num_key : Type :=
| KInt (n : Z)
| KInf.

Definition key : Type := (num_key * str)%type.

Definition num_eqb (a b : num_key) : bool :=
  match a, b with
  | KInt x, KInt y => (x =? y)%Z
  | KInf, KInf => true
  | _, _ => false
  end.

Definition num_ltb (a b : num_key) : bool :=
  match a, b with
  | KInt x, KInt y => (x <? y)%Z
  | KInt _, KInf => true
  | KInf, _ => false
  end.

(** [<] on two key tuples: the first components that differ decide. *)
Definition key_ltb (k1 k2 : key) : bool :=
  if num_eqb (fst k1) (fst k2) then str_ltb (snd k1) (snd k2)
  else num_ltb (fst k1) (fst k2).

(** ** [sorted] *)

(** Stable insertion: [x] is placed before the first element that is not
    smaller than it. *)
Fixpoint insert_key (x : key * str) (l : list (key * str))
  : list (key * str) :=
  match l with
  | [] => [x]
  | y :: l' => if key_ltb (fst y) (fst x) then y :: insert_key x l'
               else x :: l
  end.

Fixpoint sort_keys (l : list (key * str)) : list (key * str) :=
  match l with
  | [] => []
  | x :: l' => insert_key x (sort_keys l')
  end.

(** ** The record table *)

Record row : Type := {
  Sponsor : str;
  Cosponsor : list str;
  Bill : string
}.

Definition frame : Type := list row.

(** [d_frame.ix[i, _]] on the default integer index. *)
Definition ix (d_frame : frame) (i : nat) : result row :=
  match nth_error d_frame i with
  | Some r => Ok r
  | None => Err (KeyError_pos i)
  end.

(** ** The graph list builder *)

Record vertex : Type := { group : Z; name : str }.
Record chord : Type := { source : nat; target : nat; value : Z }.

(** [l.index(x)] *)
Fixpoint list_index (l : list str) (x : str) : result nat :=
  match l with
  | [] => Err (ValueError_index x)
  | y :: l' => if str_eqb y x then Ok 0%nat
               else i <- list_index l' x ;; Ok (S i)
  end.

(** [for x_lookup in x_list: ...] *)
Fixpoint pair_with_cosponsors (union_labels : list str) (y_lookup : str)
    (x_list : list str) (chord_list : list chord) : result (list chord) :=
  match x_list with
  | [] => Ok chord_list
  | x_lookup :: rest =>
      source_ind <- list_index union_labels y_lookup ;;
      target_ind <- list_index union_labels x_lookup ;;
      pair_with_cosponsors union_labels y_lookup rest
        (chord_list ++
           [{| source := source_ind; target := target_ind; value := 1 |}])
  end.

(** [for i in range(len(d_frame["Sponsor"])): ...] *)
Fixpoint pair_rows (union_labels : list str) (d_frame : frame)
    (range : list nat) (chord_list : list chord) : result (list chord) :=
  match range with
  | [] => Ok chord_list
  | i :: rest =>
      r <- ix d_frame i ;;
      chord_list' <- pair_with_cosponsors union_labels (Sponsor r)
                       (Cosponsor r) chord_list ;;
      pair_rows union_labels d_frame rest chord_list'
  end.

Section Scraper.
Variable db : CharDB.

(** What [int] makes of one character before it parses: a character
    below 127 is kept, white space becomes a space, a decimal digit the
    ASCII digit of its value, and anything else ['?'] (63), which the
    parser refuses. *)
Definition to_ascii (c : N) : N :=
  if (c <? 127)%N then c
  else if isspace db c then 32%N
  else match decimal db c with
       | Some d => (48 + Z.to_N d)%N
       | None => 63%N
       end.

(** [int(s)] for a string, base 10: a string of ASCII characters is
    parsed as it is, another one after [to_ascii]. *)
Definition py_int (s : str) : option Z :=
  long_from_string
    (if forallb (fun c => (c <? 128)%N) s then s else map to_ascii s).

(** [key=lambda item: (int(item.partition(' ')[0]) if item[0].isdigit()
                       else float("inf"), item)] *)
Definition label_key (item : str) : result key :=
  match item with
  | [] => Err IndexError
  | c :: _ =>
      if isdigit db c then
        match py_int (partition_head item) with
        | Some n => Ok (KInt n, item)
        | None => Err (ValueError_int (partition_head item))
        end
      else Ok (KInf, item)
  end.

Definition keyed (item : str) : result (key * str) :=
  k <- label_key item ;; Ok (k, item).

(** [sorted(labels, key=...)] with the key above. *)
Definition sorted_labels (labels : list str) : result (list str) :=
  ks <- mapM keyed labels ;; Ok (map snd (sort_keys ks)).

Definition create_vertex_and_chord_lists (h : HashOrder) (d_frame : frame)
  : result (list vertex * list chord) :=
  let li := flat_map Cosponsor d_frame in
  y_labels <- sorted_labels (set_iter h (map Sponsor d_frame)) ;;
  x_labels <- sorted_labels (set_iter h li) ;;
  union_labels <- sorted_labels (set_iter h (x_labels ++ y_labels)) ;;
  let vert_list :=
    map (fun label => {| group := 0; name := label |}) union_labels in
  chord_list <- pair_rows union_labels d_frame
                  (seq 0 (List.length d_frame)) [] ;;
  Ok (vert_list, chord_list).

(** * Definitions used in the statements *)

(** [a <= b] on keys: [b < a] does not hold. *)
Definition key_le (a b : key) : Prop := key_ltb b a = false.

(** [item[0].isdigit()], [False] here for the empty string. *)
Definition starts_with_digit (item : str) : bool :=
  match item with
  | c :: _ => isdigit db c
  | [] => false
  end.

(** The labels on which the key function returns. *)
Definition keyable (item : str) : bool :=
  match item with
  | [] => false
  | c :: _ =>
      if isdigit db c then
        match py_int (partition_head item) with
        | Some _ => true
        | None => false
        end
      else true
  end.

(** The first component of the key, where the key function returns. *)
Definition num_of (item : str) : num_key :=
  if starts_with_digit item then
    match py_int (partition_head item) with
    | Some n => KInt n
    | None => KInf
    end
  else KInf.

Definition key_of (item : str) : key := (num_of item, item).

(** [a] sorts strictly before [b]: both keys are defined and the key of
    [a] is smaller. *)
Definition label_before (a b : str) : Prop :=
  exists ka kb,
    label_key a = Ok ka /\ label_key b = Ok kb /\ key_ltb ka kb = true.

Definition label_le (a b : str) : Prop := key_le (key_of a) (key_of b).

Definition pair_le (a b : key * str) : Prop := key_le (fst a) (fst b).

(** The position [l.index(x)] returns, 0 where it raises. *)
Definition position (l : list str) (x : str) : nat :=
  match list_index l x with
  | Ok i => i
  | Err _ => 0%nat
  end.

(** The chords of one row. *)
Definition row_chords (union_labels : list str) (r : row) : list chord :=
  map (fun x => {| source := position union_labels (Sponsor r);
                   target := position union_labels x;
                   value := 1 |})
      (Cosponsor r).

Definition row_labels_in (us : list str) (r : row) : Prop :=
  (Cosponsor r <> [] -> In (Sponsor r) us) /\
  Forall (fun x => In x us) (Cosponsor r).

(** Every label of the table: the sponsors, then the co-sponsors. *)
Definition labels (d_frame : frame) : list str :=
  map Sponsor d_frame ++ flat_map Cosponsor d_frame.

Definition all_keyable (d_frame : frame) : Prop :=
  Forall (fun x => keyable x = true) (labels d_frame).

Definition vertex_of (label : str) : vertex :=
  {| group := 0; name := label |}.

(** The union of the labels in some order, sorted. *)
Definition union_of (h : HashOrder) (d_frame : frame) (us : list str)
  : Prop :=
  exists y_labels x_labels,
    sorted_labels (set_iter h (map Sponsor d_frame)) = Ok y_labels /\
    sorted_labels (set_iter h (flat_map Cosponsor d_frame)) = Ok x_labels /\
    sorted_labels (set_iter h (x_labels ++ y_labels)) = Ok us.

(** An edge read back through the list of labels. *)
Definition read_back (us : list str) (e : chord)
  : option str * option str * Z :=
  (nth_error us (source e), nth_error us (target e), value e).

(** The (sponsor, co-sponsor) pairs of a table, each with weight 1. *)
Definition sponsor_pairs (t : frame) : list (option str * option str * Z) :=
  flat_map (fun r => map (fun x => (Some (Sponsor r), Some x, 1%Z))
                         (Cosponsor r)) t.

Definition key_failure (e : exn) : Prop :=
  e = IndexError \/ exists tok, e = ValueError_int tok.

(** A label on which the key is meant to be used: not empty and, when
    it starts with a digit, with an integer before its first space. *)
Definition well_formed_label (item : str) : Prop :=
  item <> [] /\
  (starts_with_digit item = true ->
   exists n, py_int (partition_head item) = Some n).

Definition well_formed_table (d_frame : frame) : Prop :=
  forall item, In item (labels d_frame) -> well_formed_label item.

(** The table of the end-to-end scenario. *)
Definition scenario_table (bill1 bill2 : string) : frame :=
  [ {| Sponsor := u "1 Alpha"; Cosponsor := [u "2 Beta"]; Bill := bill1 |};
    {| Sponsor := u "2 Beta"; Cosponsor := [u "1 Alpha"; u "3 Gamma"];
       Bill := bill2 |} ].

Definition scenario_vertices : list vertex :=
  [ {| group := 0; name := u "1 Alpha" |};
    {| group := 0; name := u "2 Beta" |};
    {| group := 0; name := u "3 Gamma" |} ].

Definition scenario_chords : list chord :=
  [ {| source := 0; target := 1; value := 1 |};
    {| source := 1; target := 0; value := 1 |};
    {| source := 1; target := 2; value := 1 |} ].

(** A table with a self-sponsored bill and a repeated pair. *)
Definition loop_table : frame :=
  [ {| Sponsor := u "Reid"; Cosponsor := [u "Reid"; u "12 Kirk"; u "Reid"];
       Bill := "s7" |};
    {| Sponsor := u "12 Kirk"; Cosponsor := []; Bill := "s8" |};
    {| Sponsor := u "Reid"; Cosponsor := [u "12 Kirk"]; Bill := "s9" |} ].

Definition loop_vertices : list vertex :=
  [ {| group := 0; name := u "12 Kirk" |};
    {| group := 0; name := u "Reid" |} ].

Definition loop_chords : list chord :=
  [ {| source := 1; target := 1; value := 1 |};
    {| source := 1; target := 0; value := 1 |};
    {| source := 1; target := 1; value := 1 |};
    {| source := 1; target := 0; value := 1 |} ].

(** Two tables on which the builder returns: one with an underscore in
    a number, one with a sign. *)
Definition underscore_table : frame :=
  [ {| Sponsor := u "20 B"; Cosponsor := [u "1_0 A"]; Bill := "s1" |} ].

Definition signed_table : frame :=
  [ {| Sponsor := u "-5 X"; Cosponsor := [u "3 Y"]; Bill := "s2" |} ].

(** In every list that holds both, [sorted] puts [a] before [b]; shown
    here on the two lists of the two labels. *)
Definition sorts_before (a b : str) : Prop :=
  sorted_labels [a; b] = Ok [a; b] /\ sorted_labels [b; a] = Ok [a; b].

(** A decimal digit. *)
Definition is_decimal (c : N) : bool :=
  match decimal db c with
  | Some _ => true
  | None => false
  end.

(** The text up to the first space is numeric: a non-empty run of
    decimal digits. *)
Definition numeric_prefix (item : str) : bool :=
  match partition_head item with
  | [] => false
  | l => forallb is_decimal l
  end.

(** The order of strings by code point, in words: a proper prefix comes
    first; otherwise the first characters that differ decide. *)
Inductive str_lt : str -> str -> Prop :=
| str_lt_nil : forall c s, str_lt [] (c :: s)
| str_lt_head : forall c d s t, (c < d)%N -> str_lt (c :: s) (d :: t)
| str_lt_tail : forall c s t, str_lt s t -> str_lt (c :: s) (c :: t).

(** The number of a label: the integer before its first space, for a
    label whose first character is a digit. *)
Definition label_number (item : str) : option Z :=
  if starts_with_digit item then py_int (partition_head item) else None.

(** The key of a label of ASCII characters, by the ASCII tables. *)
Definition plain_key (item : str) : result key :=
  match item with
  | [] => Err IndexError
  | c :: _ =>
      if ascii_digit c then
        match long_from_string (partition_head item) with
        | Some n => Ok (KInt n, item)
        | None => Err (ValueError_int (partition_head item))
        end
      else Ok (KInf, item)
  end.

(** The ordering rule of the code, in words: numbered labels by their
    number, then by their text; the other labels after them, by their
    text. *)
Definition rule_before (a b : str) : Prop :=
  match label_number a, label_number b with
  | Some x, Some y => (x < y)%Z \/ (x = y /\ str_lt a b)
  | Some _, None => True
  | None, Some _ => False
  | None, None => str_lt a b
  end.

(** The ordering rule of the specification, with "numeric" read as
    "a run of decimal digits": a label with a numeric prefix before one
    without. *)
Definition numeric_first (names : list str) : Prop :=
  forall i j a b,
    (i < j)%nat -> nth_error names i = Some a -> nth_error names j = Some b ->
    numeric_prefix b = true -> numeric_prefix a = true.

(** The same rule with "numeric" read as "read by [int]": labels with
    such a prefix in ascending order of the integer. *)
Definition numeric_ascending (names : list str) : Prop :=
  forall i j a b x y,
    (i < j)%nat -> nth_error names i = Some a -> nth_error names j = Some b ->
    py_int (partition_head a) = Some x -> py_int (partition_head b) = Some y ->
    (x <= y)%Z.

(** The value of field [k] of an object, if [v] is an object that has
    it. *)
Definition field (k : string) (v : json) : option json :=
  match v with
  | JObj fields => assoc k fields
  | _ => None
  end.

Fixpoint all_some {A} (l : list (option A)) : option (list A) :=
  match l with
  | [] => Some []
  | Some a :: l' => option_map (cons a) (all_some l')
  | None :: _ => None
  end.

(** The names of the co-sponsors: the field [name] of every item of
    the array. An empty object and an empty string have length 0, like
    an empty array: no item is looked at. *)
Definition cosponsor_names (cosponsors : json) : option (list json) :=
  match cosponsors with
  | JArr items => all_some (map (field "name") items)
  | JObj [] => Some []
  | JStr EmptyString => Some []
  | _ => None
  end.

(** The row of a record that has the expected fields [sponsor.name],
    [cosponsors[i].name] and [bill_id]; [None] when one is missing. *)
Definition expected_row (r : json) : option json_row :=
  match field "sponsor" r, field "cosponsors" r, field "bill_id" r with
  | Some sponsor, Some cosponsors, Some bill =>
      match field "name" sponsor, cosponsor_names cosponsors with
      | Some n, Some ns => Some (n, ns, bill)
      | _, _ => None
      end
  | _, _, _ => None
  end.

(** The failures of a field access. *)
Definition schema_error (e : exn) : Prop :=
  match e with
  | KeyError _ | KeyError_pos _ | TypeError => True
  | _ => False
  end.

Definition good_record : json :=
  JObj [ ("bill_id", JStr "s7-113");
         ("cosponsors", JArr [ JObj [ ("name", JStr "12 Kirk") ];
                               JObj [ ("name", JStr "Reid") ] ]);
         ("sponsor", JObj [ ("name", JStr "Reid"); ("state", JStr "NV") ]) ].

Definition record_without_bill : json :=
  JObj [ ("cosponsors", JArr []);
         ("sponsor", JObj [ ("name", JStr "12 Kirk") ]) ].

(** Two records whose bills are no strings. *)
Definition record_number_bill : json :=
  JObj [ ("bill_id", JNum "1.5");
         ("cosponsors", JArr []);
         ("sponsor", JObj [ ("name", JStr "Reid") ]) ].

Definition record_null_bill : json :=
  JObj [ ("bill_id", JNull);
         ("cosponsors", JArr []);
         ("sponsor", JObj [ ("name", JStr "12 Kirk") ]) ].

(** A world in which every request answers the same page with twelve
    anchors, eleven of them bill links. *)
Definition twelve_hrefs : list string :=
  [ "../"; "s1/"; "s10/"; "s100/"; "s1000/"; "s1001/"; "s1002/"; "s1003/";
    "s1004/"; "s1005/"; "s1006/"; "s1007/" ].

(** The builder with one sort of the set of all the labels, in place of
    the three sorts of the source. *)
Definition one_sort_builder (h : HashOrder) (d_frame : frame)
  : result (list vertex * list chord) :=
  union_labels <- sorted_labels (set_iter h (labels d_frame)) ;;
  chord_list <- pair_rows union_labels d_frame
                  (seq 0 (List.length d_frame)) [] ;;
  Ok (map vertex_of union_labels, chord_list).

(** A record that is not a [dict]. *)
Definition not_an_object (r : json) : Prop :=
  match r with
  | JObj _ => False
  | _ => True
  end.

(** A network that answers three requests and refuses the later ones;
    the world is the number of requests made. *)
Definition three_answers (url : string) (w : nat) : result string * nat :=
  if (w <? 3)%nat then (Ok "page", S w) else (Err (ConnectionError url), S w).

(** A network that answers every request. *)
Definition always_answers (url : string) (w : unit) : result string * unit :=
  (Ok "page", w).

Definition good_row : json_row :=
  (JStr "Reid", [JStr "12 Kirk"; JStr "Reid"], JStr "s7-113").

(** * Properties *)

(** ** The order on strings *)

Lemma str_compare_refl (s : str) : str_compare s s = Eq.
Proof. induction s; simpl; [ | rewrite N.compare_refl ]; auto. Qed.

Lemma str_compare_eq (a b : str) : str_compare a b = Eq -> a = b.
Proof.
  revert b. induction a as [ | c a IH ]; intros [ | d b ]; simpl;
    try discriminate; auto.
  destruct (c ?= d)%N eqn:Hcd; try discriminate.
  apply N.compare_eq in Hcd. intros H. f_equal; auto.
Qed.

Lemma str_compare_antisym (a b : str) :
  str_compare b a = CompOpp (str_compare a b).
Proof.
  revert b. induction a as [ | c a IH ]; intros [ | d b ]; simpl; auto.
  rewrite (N.compare_antisym c d).
  destruct (c ?= d)%N; simpl; auto.
Qed.

Lemma str_compare_lt_trans (a b c : str) :
  str_compare a b = Lt -> str_compare b c = Lt -> str_compare a c = Lt.
Proof.
  revert b c. induction a as [ | x a IH ]; intros [ | y b ] [ | z c ];
    simpl; try congruence.
  destruct (x ?= y)%N eqn:Hxy; try congruence;
    destruct (y ?= z)%N eqn:Hyz; try congruence; intros H1 H2.
  - apply N.compare_eq in Hxy, Hyz. subst. rewrite N.compare_refl. eauto.
  - apply N.compare_eq in Hxy. subst. now rewrite Hyz.
  - apply N.compare_eq in Hyz. subst. now rewrite Hxy.
  - rewrite N.compare_lt_iff in *.
    assert (E : (x ?= z)%N = Lt) by (apply N.compare_lt_iff; lia).
    now rewrite E.
Qed.

Lemma str_ltb_lt (a b : str) :
  str_ltb a b = true <-> str_compare a b = Lt.
Proof.
  unfold str_ltb. destruct (str_compare a b); split; congruence.
Qed.

Lemma str_ltb_irrefl (a : str) : str_ltb a a = false.
Proof. unfold str_ltb. now rewrite str_compare_refl. Qed.

Lemma str_ltb_trans (a b c : str) :
  str_ltb a b = true -> str_ltb b c = true -> str_ltb a c = true.
Proof. rewrite !str_ltb_lt. apply str_compare_lt_trans. Qed.

Lemma str_ltb_total (a b : str) :
  a <> b -> str_ltb a b = true \/ str_ltb b a = true.
Proof.
  intros Hne. rewrite !str_ltb_lt.
  rewrite (str_compare_antisym a b).
  destruct (str_compare a b) eqn:Hc; simpl; auto.
  apply str_compare_eq in Hc. contradiction.
Qed.

Lemma str_ltb_asym (a b : str) :
  str_ltb a b = true -> str_ltb b a = false.
Proof.
  intros H. destruct (str_ltb b a) eqn:Hba; auto.
  pose proof (str_ltb_trans _ _ _ H Hba) as Haa.
  rewrite str_ltb_irrefl in Haa. discriminate.
Qed.

Lemma str_eqb_spec (a b : str) : reflect (a = b) (str_eqb a b).
Proof.
  revert b. induction a as [ | c a IH ]; intros [ | d b ]; simpl;
    try (constructor; congruence).
  destruct (N.eqb_spec c d) as [ -> | Hne ]; simpl.
  - destruct (IH b) as [ -> | Hne ]; constructor; congruence.
  - constructor. congruence.
Qed.

Lemma str_eqb_refl (a : str) : str_eqb a a = true.
Proof. now destruct (str_eqb_spec a a). Qed.

(** The comparison computes the order in words. *)
Lemma str_ltb_spec (a b : str) : str_ltb a b = true <-> str_lt a b.
Proof.
  rewrite str_ltb_lt. split.
  - revert b. induction a as [ | c a IH ]; intros [ | d b ]; simpl;
      try discriminate.
    + intros _. constructor.
    + destruct (c ?= d)%N eqn:Hcd; try discriminate.
      * apply N.compare_eq in Hcd. subst. intros H.
        apply str_lt_tail. auto.
      * intros _. apply str_lt_head. now apply N.compare_lt_iff.
  - induction 1 as [ c s | c d s t H | c s t H IH ]; simpl; auto.
    + apply N.compare_lt_iff in H. now rewrite H.
    + now rewrite N.compare_refl.
Qed.

(** ** The order on keys *)

Lemma num_eqb_eq (a b : num_key) : num_eqb a b = true <-> a = b.
Proof.
  destruct a, b; simpl; try rewrite Z.eqb_eq; split; congruence.
Qed.

Lemma num_eqb_refl (a : num_key) : num_eqb a a = true.
Proof. now apply num_eqb_eq. Qed.

Lemma num_ltb_irrefl (a : num_key) : num_ltb a a = false.
Proof. destruct a; simpl; auto. apply Z.ltb_irrefl. Qed.

Lemma num_ltb_trans (a b c : num_key) :
  num_ltb a b = true -> num_ltb b c = true -> num_ltb a c = true.
Proof.
  destruct a, b, c; simpl; try congruence. rewrite !Z.ltb_lt. lia.
Qed.

Lemma num_ltb_total (a b : num_key) :
  a <> b -> num_ltb a b = true \/ num_ltb b a = true.
Proof.
  destruct a as [ x | ], b as [ y | ]; simpl; auto; try congruence.
  rewrite !Z.ltb_lt. intros H.
  destruct (Z.lt_trichotomy x y) as [ | [ -> | ] ]; auto. congruence.
Qed.

Lemma key_ltb_irrefl (k : key) : key_ltb k k = false.
Proof. unfold key_ltb. rewrite num_eqb_refl. apply str_ltb_irrefl. Qed.

Lemma key_ltb_trans (a b c : key) :
  key_ltb a b = true -> key_ltb b c = true -> key_ltb a c = true.
Proof.
  destruct a as [na sa], b as [nb sb], c as [nc sc]. unfold key_ltb. simpl.
  destruct (num_eqb na nb) eqn:Hab.
  - apply num_eqb_eq in Hab. subst nb.
    destruct (num_eqb na nc) eqn:Hac; auto. apply str_ltb_trans.
  - destruct (num_eqb nb nc) eqn:Hbc.
    + apply num_eqb_eq in Hbc. subst nc. rewrite Hab. auto.
    + intros H1 H2. pose proof (num_ltb_trans _ _ _ H1 H2) as H3.
      destruct (num_eqb na nc) eqn:Hac; auto.
      apply num_eqb_eq in Hac. subst nc.
      pose proof (num_ltb_trans _ _ _ H2 H1) as H4.
      rewrite num_ltb_irrefl in H4. discriminate.
Qed.

Lemma key_ltb_total (a b : key) :
  a <> b -> key_ltb a b = true \/ key_ltb b a = true.
Proof.
  destruct a as [na sa], b as [nb sb]. unfold key_ltb. simpl. intros Hne.
  destruct (num_eqb na nb) eqn:Hab.
  - apply num_eqb_eq in Hab. subst nb. rewrite num_eqb_refl.
    apply str_ltb_total. congruence.
  - assert (Hba : num_eqb nb na = false).
    { destruct (num_eqb nb na) eqn:E; auto. apply num_eqb_eq in E.
      subst. now rewrite num_eqb_refl in Hab. }
    rewrite Hba. apply num_ltb_total. intros ->.
    now rewrite num_eqb_refl in Hab.
Qed.

Lemma key_ltb_asym (a b : key) : key_ltb a b = true -> key_ltb b a = false.
Proof.
  intros H. destruct (key_ltb b a) eqn:Hba; auto.
  pose proof (key_ltb_trans _ _ _ H Hba) as Haa.
  rewrite key_ltb_irrefl in Haa. discriminate.
Qed.

Lemma key_eq_dec (a b : key) : {a = b} + {a <> b}.
Proof. repeat decide equality. Qed.

Lemma key_le_trans (a b c : key) : key_le a b -> key_le b c -> key_le a c.
Proof.
  unfold key_le. intros Hab Hbc.
  destruct (key_ltb c a) eqn:Hca; auto.
  destruct (key_eq_dec a b) as [ -> | Hne ]; [ congruence | ].
  destruct (key_ltb_total a b Hne) as [H | H]; [ | congruence ].
  pose proof (key_ltb_trans _ _ _ Hca H). congruence.
Qed.

Lemma key_le_antisym (a b : key) : key_le a b -> key_le b a -> a = b.
Proof.
  unfold key_le. intros Hab Hba.
  destruct (key_eq_dec a b) as [ | Hne ]; auto.
  destruct (key_ltb_total a b Hne); congruence.
Qed.

(** ** The sort key *)

Lemma label_key_keyable (item : str) :
  keyable item = true -> label_key item = Ok (key_of item).
Proof.
  unfold keyable, label_key, key_of, num_of, starts_with_digit.
  destruct item as [ | c rest ]; [ discriminate | ].
  destruct (isdigit db c); auto.
  destruct (py_int (partition_head (c :: rest))); auto. discriminate.
Qed.

Lemma label_key_Ok (item : str) (k : key) :
  label_key item = Ok k -> keyable item = true /\ k = key_of item.
Proof.
  unfold keyable, label_key, key_of, num_of, starts_with_digit.
  destruct item as [ | c rest ]; [ discriminate | ].
  destruct (isdigit db c).
  - destruct (py_int (partition_head (c :: rest))); intros H;
      inversion H; auto.
  - intros H; inversion H; auto.
Qed.

Lemma label_key_Err (item : str) :
  keyable item = false ->
  label_key item = Err IndexError /\ item = [] \/
  label_key item = Err (ValueError_int (partition_head item)) /\
  starts_with_digit item = true.
Proof.
  unfold keyable, label_key, starts_with_digit.
  destruct item as [ | c rest ]; auto.
  destruct (isdigit db c); [ | discriminate ].
  destruct (py_int (partition_head (c :: rest))); [ discriminate | auto ].
Qed.

Lemma label_le_antisym (a b : str) : label_le a b -> label_le b a -> a = b.
Proof.
  intros H1 H2. pose proof (key_le_antisym _ _ H1 H2) as E.
  unfold key_of in E. congruence.
Qed.

(** ** [mapM] *)

Lemma mapM_keyed_Ok (l : list str) :
  Forall (fun x => keyable x = true) l ->
  mapM keyed l = Ok (map (fun x => (key_of x, x)) l).
Proof.
  induction 1 as [ | x l Hx _ IH ]; simpl; auto.
  unfold keyed at 1. rewrite (label_key_keyable x Hx). simpl.
  now rewrite IH.
Qed.

Lemma mapM_keyed_inv (l : list str) (ks : list (key * str)) :
  mapM keyed l = Ok ks ->
  Forall (fun x => keyable x = true) l /\
  ks = map (fun x => (key_of x, x)) l.
Proof.
  revert ks. induction l as [ | x l IH ]; simpl; intros ks H.
  - inversion H. auto.
  - unfold keyed at 1 in H.
    destruct (label_key x) as [ k | e ] eqn:Hk; simpl in H; [ | discriminate ].
    destruct (mapM keyed l) as [ ks' | e ] eqn:Hl; simpl in H;
      [ | discriminate ].
    apply label_key_Ok in Hk. destruct Hk as [Hx ->].
    destruct (IH ks' eq_refl) as [Hall ->]. inversion H. auto.
Qed.

(** ** Insertion sort *)

Lemma insert_key_perm (x : key * str) (l : list (key * str)) :
  Permutation (x :: l) (insert_key x l).
Proof.
  induction l as [ | y l IH ]; simpl; auto.
  destruct (key_ltb (fst y) (fst x)); auto.
  eapply perm_trans; [ apply perm_swap | auto ].
Qed.

Lemma sort_keys_perm (l : list (key * str)) : Permutation l (sort_keys l).
Proof.
  induction l as [ | x l IH ]; simpl; auto.
  eapply perm_trans; [ apply perm_skip, IH | apply insert_key_perm ].
Qed.

Lemma insert_key_sorted (x : key * str) (l : list (key * str)) :
  StronglySorted pair_le l -> StronglySorted pair_le (insert_key x l).
Proof.
  induction 1 as [ | y l Hs IH Hy ]; simpl.
  - repeat constructor.
  - destruct (key_ltb (fst y) (fst x)) eqn:Hyx.
    + constructor; auto.
      apply Forall_forall. intros z Hz.
      apply (Permutation_in _ (Permutation_sym (insert_key_perm x l))) in Hz.
      destruct Hz as [ <- | Hz ].
      * apply key_ltb_asym, Hyx.
      * rewrite Forall_forall in Hy. auto.
    + constructor; [ constructor; auto | ].
      constructor; [ exact Hyx | ].
      apply Forall_forall. intros z Hz. rewrite Forall_forall in Hy.
      eapply key_le_trans; [ exact Hyx | apply Hy, Hz ].
Qed.

Lemma sort_keys_sorted (l : list (key * str)) :
  StronglySorted pair_le (sort_keys l).
Proof.
  induction l; simpl; [ constructor | now apply insert_key_sorted ].
Qed.

(** ** What [sorted] returns *)

Lemma StronglySorted_map_snd (ks : list (key * str)) :
  Forall (fun p => fst p = key_of (snd p)) ks ->
  StronglySorted pair_le ks -> StronglySorted label_le (map snd ks).
Proof.
  intros Hk Hs. induction Hs as [ | p ks Hs IH Hp ]; simpl; constructor.
  - apply IH. now inversion Hk.
  - inversion Hk as [ | ? ? Hp' Hks ]; subst.
    apply Forall_forall. intros z Hz. apply in_map_iff in Hz.
    destruct Hz as [q [<- Hq]]. rewrite Forall_forall in Hp, Hks.
    unfold label_le. rewrite <- Hp', <- (Hks q Hq). apply Hp, Hq.
Qed.

Lemma sorted_labels_inv (l l' : list str) :
  sorted_labels l = Ok l' ->
  Forall (fun x => keyable x = true) l /\
  Permutation l l' /\ StronglySorted label_le l'.
Proof.
  unfold sorted_labels. intros H.
  destruct (mapM keyed l) as [ ks | e ] eqn:Hks; simpl in H;
    [ | discriminate ].
  inversion H; subst l'; clear H.
  apply mapM_keyed_inv in Hks. destruct Hks as [Hall ->].
  split; [ exact Hall | split ].
  - assert (E : l = map snd (map (fun x => (key_of x, x)) l)).
    { rewrite map_map. simpl. now rewrite map_id. }
    rewrite E at 1. apply Permutation_map, sort_keys_perm.
  - apply StronglySorted_map_snd; [ | apply sort_keys_sorted ].
    apply Forall_forall. intros p Hp.
    apply (Permutation_in _ (Permutation_sym (sort_keys_perm _))) in Hp.
    apply in_map_iff in Hp. destruct Hp as [x [<- _]]. reflexivity.
Qed.

Lemma sorted_labels_total (l : list str) :
  Forall (fun x => keyable x = true) l -> exists l', sorted_labels l = Ok l'.
Proof.
  intros H. unfold sorted_labels. rewrite (mapM_keyed_Ok l H). simpl. eauto.
Qed.

(** A sorted list is determined by its elements. *)
Lemma sorted_perm_unique (l1 l2 : list str) :
  StronglySorted label_le l1 -> StronglySorted label_le l2 ->
  Permutation l1 l2 -> l1 = l2.
Proof.
  intros H1. revert l2. induction H1 as [ | a l1 Hs1 IH Ha ]; intros l2 H2 HP.
  - apply Permutation_nil in HP. now subst.
  - destruct H2 as [ | b l2 Hs2 Hb ].
    + apply Permutation_sym, Permutation_nil in HP. discriminate.
    + assert (E : a = b).
      { destruct (str_dec a b) as [ | Hne ]; auto.
        assert (Ia : In a (b :: l2)) by
          (apply (Permutation_in _ HP); now left).
        assert (Ib : In b (a :: l1)) by
          (apply (Permutation_in _ (Permutation_sym HP)); now left).
        destruct Ia as [ | Ia ]; [ congruence | ].
        destruct Ib as [ | Ib ]; [ congruence | ].
        rewrite Forall_forall in Ha, Hb.
        apply label_le_antisym; auto. }
      subst b. f_equal. apply IH; auto.
      now apply Permutation_cons_inv in HP.
Qed.

Lemma sorted_labels_perm (l1 l2 r1 r2 : list str) :
  Permutation l1 l2 ->
  sorted_labels l1 = Ok r1 -> sorted_labels l2 = Ok r2 -> r1 = r2.
Proof.
  intros HP E1 E2.
  apply sorted_labels_inv in E1, E2.
  destruct E1 as (_ & P1 & S1), E2 as (_ & P2 & S2).
  apply sorted_perm_unique; auto.
  eapply perm_trans; [ apply Permutation_sym, P1 | ].
  eapply perm_trans; [ apply HP | apply P2 ].
Qed.

(** ** Index lookups *)

Lemma list_index_In (l : list str) (x : str) :
  In x l ->
  exists i, list_index l x = Ok i /\ nth_error l i = Some x /\
            (i < List.length l)%nat.
Proof.
  induction l as [ | y l IH ]; simpl; [ tauto | ]. intros H.
  destruct (str_eqb_spec y x) as [ -> | Hne ].
  - exists 0%nat. repeat split; auto. lia.
  - destruct H as [ | H ]; [ contradiction | ].
    destruct (IH H) as (i & -> & Hn & Hi). exists (S i). simpl.
    repeat split; auto. lia.
Qed.

Lemma list_index_Err (l : list str) (x : str) (e : exn) :
  list_index l x = Err e -> e = ValueError_index x /\ ~ In x l.
Proof.
  induction l as [ | y l IH ]; simpl.
  - intros H. inversion H. auto.
  - destruct (str_eqb_spec y x) as [ -> | Hne ]; [ discriminate | ].
    destruct (list_index l x) as [ i | e' ]; simpl; [ discriminate | ].
    intros H. inversion H; subst. destruct (IH eq_refl) as [E Hn].
    split; auto. intros [ | ]; auto.
Qed.

Lemma list_index_position (l : list str) (x : str) :
  In x l -> list_index l x = Ok (position l x).
Proof.
  intros H. unfold position.
  destruct (list_index_In l x H) as (i & -> & _). reflexivity.
Qed.

Lemma position_nth (l : list str) (x : str) :
  In x l -> nth_error l (position l x) = Some x /\
            (position l x < List.length l)%nat.
Proof.
  intros H. unfold position.
  destruct (list_index_In l x H) as (i & -> & Hn & Hi). auto.
Qed.

(** ** The two loops *)

Lemma pair_with_cosponsors_Ok (u : list str) (y : str)
    (xs : list str) (acc : list chord) :
  (xs <> [] -> In y u) -> Forall (fun x => In x u) xs ->
  pair_with_cosponsors u y xs acc =
  Ok (acc ++ map (fun x => {| source := position u y;
                              target := position u x; value := 1 |}) xs).
Proof.
  intros Hy Hxs. revert acc.
  induction Hxs as [ | x xs Hx Hxs IH ]; intros acc; simpl.
  - now rewrite app_nil_r.
  - rewrite (list_index_position u y) by (apply Hy; discriminate).
    rewrite (list_index_position u x Hx). simpl.
    rewrite IH by (intros _; apply Hy; discriminate).
    now rewrite <- app_assoc.
Qed.

Lemma ix_app (pre : frame) (r : row) (rest : frame) :
  ix (pre ++ r :: rest) (List.length pre) = Ok r.
Proof.
  unfold ix. rewrite nth_error_app2 by lia. now rewrite Nat.sub_diag.
Qed.

Lemma pair_rows_Ok (u : list str) (pre rest : frame) (acc : list chord) :
  Forall (row_labels_in u) rest ->
  pair_rows u (pre ++ rest) (seq (List.length pre) (List.length rest)) acc =
  Ok (acc ++ flat_map (row_chords u) rest).
Proof.
  intros H. revert pre acc.
  induction H as [ | r rest [Hy Hxs] _ IH ]; intros pre acc; simpl.
  - now rewrite app_nil_r.
  - rewrite ix_app. simpl.
    rewrite (pair_with_cosponsors_Ok u _ _ acc Hy Hxs). simpl.
    replace (pre ++ r :: rest) with ((pre ++ [r]) ++ rest)
      by now rewrite <- app_assoc.
    replace (S (List.length pre)) with (List.length (pre ++ [r]))
      by (rewrite length_app; simpl; lia).
    rewrite IH. unfold row_chords at 2. now rewrite <- app_assoc.
Qed.

(** ** The builder *)

Lemma set_iter_elim (h : HashOrder) (l : list str) (x : str) :
  In x (set_iter h l) -> In x l.
Proof. apply set_iter_In. Qed.

Lemma set_iter_intro (h : HashOrder) (l : list str) (x : str) :
  In x l -> In x (set_iter h l).
Proof. apply set_iter_In. Qed.

Lemma union_of_spec (h : HashOrder) (t : frame) (u : list str) :
  union_of h t u ->
  all_keyable t /\ NoDup u /\ (forall x, In x u <-> In x (labels t)) /\
  StronglySorted label_le u.
Proof.
  intros (ys & xs & Hy & Hx & Hu).
  apply sorted_labels_inv in Hy, Hx, Hu.
  destruct Hy as (Ky & Py & _), Hx as (Kx & Px & _), Hu as (_ & Pu & Su).
  assert (Iy : forall x, In x ys <-> In x (map Sponsor t)).
  { intros x. rewrite <- (set_iter_In h (map Sponsor t)).
    split; [ apply (Permutation_in _ (Permutation_sym Py))
           | apply (Permutation_in _ Py) ]. }
  assert (Ix : forall x, In x xs <-> In x (flat_map Cosponsor t)).
  { intros x. rewrite <- (set_iter_In h (flat_map Cosponsor t)).
    split; [ apply (Permutation_in _ (Permutation_sym Px))
           | apply (Permutation_in _ Px) ]. }
  repeat split.
  - unfold all_keyable, labels. rewrite Forall_forall in *.
    intros x Hin. apply in_app_or in Hin.
    destruct Hin as [ Hin | Hin ]; [ apply Ky | apply Kx ];
      now apply set_iter_intro.
  - eapply Permutation_NoDup; [ exact Pu | apply set_iter_NoDup ].
  - intros Hin. apply (Permutation_in _ (Permutation_sym Pu)) in Hin.
    apply set_iter_elim in Hin. unfold labels. apply in_or_app.
    apply in_app_or in Hin. rewrite Ix, Iy in Hin. tauto.
  - intros Hin. apply (Permutation_in _ Pu). apply set_iter_intro.
    unfold labels in Hin. apply in_app_or in Hin. apply in_or_app.
    rewrite Ix, Iy. tauto.
  - exact Su.
Qed.

Lemma union_of_total (h : HashOrder) (t : frame) :
  all_keyable t -> exists u, union_of h t u.
Proof.
  unfold all_keyable, labels. intros H. rewrite Forall_app in H.
  destruct H as [Hy Hx].
  destruct (sorted_labels_total (set_iter h (map Sponsor t))) as [ys Eys].
  { rewrite Forall_forall in *. intros x Hin.
    apply Hy. now apply set_iter_elim in Hin. }
  destruct (sorted_labels_total (set_iter h (flat_map Cosponsor t)))
    as [xs Exs].
  { rewrite Forall_forall in *. intros x Hin.
    apply Hx. now apply set_iter_elim in Hin. }
  destruct (sorted_labels_total (set_iter h (xs ++ ys))) as [u Eu].
  { apply sorted_labels_inv in Eys, Exs.
    destruct Eys as (_ & Py & _), Exs as (_ & Px & _).
    rewrite Forall_forall in *. intros x Hin. apply set_iter_elim in Hin.
    apply in_app_or in Hin. destruct Hin as [ Hin | Hin ].
    - apply Hx, (set_iter_elim h).
      now apply (Permutation_in _ (Permutation_sym Px)).
    - apply Hy, (set_iter_elim h).
      now apply (Permutation_in _ (Permutation_sym Py)). }
  exists u, ys, xs. auto.
Qed.

Lemma rows_labels_in (t : frame) (u : list str) :
  (forall x, In x (labels t) -> In x u) -> Forall (row_labels_in u) t.
Proof.
  intros H. apply Forall_forall. intros r Hr. split.
  - intros _. apply H. unfold labels. apply in_or_app. left.
    now apply in_map.
  - apply Forall_forall. intros x Hx. apply H. unfold labels.
    apply in_or_app. right. apply in_flat_map. eauto.
Qed.

Lemma create_of_union (h : HashOrder) (t : frame) (u : list str) :
  union_of h t u ->
  create_vertex_and_chord_lists h t =
  Ok (map vertex_of u, flat_map (row_chords u) t).
Proof.
  intros Hu. pose proof (union_of_spec h t u Hu) as (_ & _ & Hin & _).
  destruct Hu as (ys & xs & Hy & Hx & Hu).
  unfold create_vertex_and_chord_lists. rewrite Hy. simpl.
  rewrite Hx. simpl. rewrite Hu. simpl.
  pose proof (pair_rows_Ok u [] t []) as Hrows. simpl in Hrows.
  rewrite Hrows; [ reflexivity | ].
  apply rows_labels_in. intros x. apply Hin.
Qed.

Lemma create_inv (h : HashOrder) (t : frame) (vs : list vertex)
    (es : list chord) :
  create_vertex_and_chord_lists h t = Ok (vs, es) ->
  exists u, union_of h t u /\ vs = map vertex_of u /\
            es = flat_map (row_chords u) t.
Proof.
  intros H. pose proof H as H'. unfold create_vertex_and_chord_lists in H.
  destruct (sorted_labels (set_iter h (map Sponsor t)))
    as [ ys | ] eqn:Hy; simpl in H; [ | discriminate ].
  destruct (sorted_labels (set_iter h (flat_map Cosponsor t)))
    as [ xs | ] eqn:Hx; simpl in H; [ | discriminate ].
  destruct (sorted_labels (set_iter h (xs ++ ys)))
    as [ u | ] eqn:Hu; simpl in H; [ | discriminate ].
  assert (U : union_of h t u) by (exists ys, xs; auto).
  rewrite (create_of_union h t u U) in H'. inversion H'. eauto.
Qed.

Lemma create_total (h : HashOrder) (t : frame) :
  all_keyable t ->
  exists vs es, create_vertex_and_chord_lists h t = Ok (vs, es).
Proof.
  intros H. destruct (union_of_total h t H) as [u Hu].
  rewrite (create_of_union h t u Hu). eauto.
Qed.

Lemma union_of_unique (h1 h2 : HashOrder) (t : frame) (u1 u2 : list str) :
  union_of h1 t u1 -> union_of h2 t u2 -> u1 = u2.
Proof.
  intros H1 H2. apply union_of_spec in H1, H2.
  destruct H1 as (_ & N1 & I1 & S1), H2 as (_ & N2 & I2 & S2).
  apply sorted_perm_unique; auto.
  apply NoDup_Permutation; auto. intros x. now rewrite I1, I2.
Qed.

(** The result does not depend on the order in which sets are iterated. *)
Lemma create_hash_irrelevant (h1 h2 : HashOrder) (t : frame)
    (r : list vertex * list chord) :
  create_vertex_and_chord_lists h1 t = Ok r ->
  create_vertex_and_chord_lists h2 t = Ok r.
Proof.
  destruct r as [vs es]. intros H.
  destruct (create_inv h1 t vs es H) as (u & Hu & -> & ->).
  destruct (union_of_total h2 t) as [u2 Hu2].
  { now apply union_of_spec in Hu. }
  rewrite (create_of_union h2 t u2 Hu2).
  now rewrite (union_of_unique h1 h2 t u u2 Hu Hu2).
Qed.

Lemma label_le_before (a b : str) :
  keyable a = true -> keyable b = true -> a <> b ->
  label_le a b -> label_before a b.
Proof.
  intros Ka Kb Hne Hle. exists (key_of a), (key_of b).
  repeat split; try now apply label_key_keyable.
  destruct (key_ltb_total (key_of a) (key_of b)) as [ | H ]; auto.
  - unfold key_of. congruence.
  - unfold label_le, key_le in Hle. congruence.
Qed.

Lemma sorted_strict (u : list str) :
  Forall (fun x => keyable x = true) u -> NoDup u ->
  StronglySorted label_le u -> StronglySorted label_before u.
Proof.
  intros K N S. induction S as [ | a u S IH Ha ]; constructor.
  - apply IH; [ now inversion K | now inversion N ].
  - inversion K as [ | ? ? Ka Ku ]; inversion N as [ | ? ? Na Nu ]; subst.
    rewrite Forall_forall in *. intros b Hb.
    apply label_le_before; auto. intros ->. contradiction.
Qed.

Lemma map_name_vertex_of (u : list str) : map name (map vertex_of u) = u.
Proof. rewrite map_map. simpl. apply map_id. Qed.

Lemma read_back_row (u : list str) (r : row) :
  row_labels_in u r ->
  map (read_back u) (row_chords u r) =
  map (fun x => (Some (Sponsor r), Some x, 1%Z)) (Cosponsor r).
Proof.
  intros [Hy Hxs]. unfold row_chords. rewrite map_map.
  apply map_ext_in. intros x Hx. unfold read_back. simpl.
  rewrite Forall_forall in Hxs.
  destruct (position_nth u (Sponsor r)) as [-> _].
  { apply Hy. intros E. rewrite E in Hx. contradiction. }
  destruct (position_nth u x (Hxs x Hx)) as [-> _]. reflexivity.
Qed.

Lemma read_back_rows (u : list str) (t : frame) :
  Forall (row_labels_in u) t ->
  map (read_back u) (flat_map (row_chords u) t) = sponsor_pairs t.
Proof.
  unfold sponsor_pairs. induction 1 as [ | r t Hr _ IH ]; simpl; auto.
  rewrite map_app, IH, (read_back_row u r Hr). reflexivity.
Qed.

Lemma length_rows_chords (u : list str) (t : frame) :
  List.length (flat_map (row_chords u) t) =
  list_sum (map (fun r => List.length (Cosponsor r)) t).
Proof.
  induction t as [ | r t IH ]; simpl; auto.
  rewrite length_app, IH. unfold row_chords. now rewrite length_map.
Qed.

Lemma union_rows_labels_in (h : HashOrder) (t : frame) (u : list str) :
  union_of h t u -> Forall (row_labels_in u) t.
Proof.
  intros Hu. apply union_of_spec in Hu. destruct Hu as (_ & _ & Hin & _).
  apply rows_labels_in. intros x. apply Hin.
Qed.

(** ** Failures of the builder *)

Lemma mapM_keyed_Err (l : list str) (e : exn) :
  mapM keyed l = Err e ->
  key_failure e /\ exists item, In item l /\ label_key item = Err e.
Proof.
  induction l as [ | x l IH ]; simpl; [ discriminate | ].
  unfold keyed at 1. destruct (label_key x) as [ k | e' ] eqn:Hk; simpl.
  - destruct (mapM keyed l) as [ ks | e' ]; simpl; [ discriminate | ].
    intros H. inversion H; subst.
    destruct (IH eq_refl) as (F & item & Hin & Hitem). eauto.
  - intros H. inversion H; subst. split; [ | eauto ].
    destruct (keyable x) eqn:Kx.
    + rewrite (label_key_keyable x Kx) in Hk. discriminate.
    + destruct (label_key_Err x Kx) as [ [E _] | [E _] ];
        rewrite E in Hk; inversion Hk; [ left | right ]; eauto.
Qed.

Lemma sorted_labels_Err (l : list str) (e : exn) :
  sorted_labels l = Err e ->
  key_failure e /\ exists item, In item l /\ label_key item = Err e.
Proof.
  unfold sorted_labels.
  destruct (mapM keyed l) as [ ks | e' ] eqn:Hks; simpl; [ discriminate | ].
  intros H. inversion H; subst. now apply mapM_keyed_Err.
Qed.

(** A failure of one of the three sorts is the key failure of a label
    of the set that was sorted. *)
Ltac blame_sort H Hsort :=
  let F := fresh "F" in
  let item := fresh "item" in
  let Hin := fresh "Hin" in
  let Hitem := fresh "Hitem" in
  inversion H; subst;
  destruct (sorted_labels_Err _ _ Hsort) as (F & item & Hin & Hitem);
  split; [ exact F | ];
  exists item; split; [ | exact Hitem ];
  apply set_iter_elim in Hin; unfold labels; apply in_or_app.

Lemma create_Err (h : HashOrder) (t : frame) (e : exn) :
  create_vertex_and_chord_lists h t = Err e ->
  key_failure e /\ exists item, In item (labels t) /\ label_key item = Err e.
Proof.
  intros H. pose proof H as H'. unfold create_vertex_and_chord_lists in H.
  destruct (sorted_labels (set_iter h (map Sponsor t)))
    as [ ys | e1 ] eqn:Hy; simpl in H; [ | blame_sort H Hy; auto ].
  destruct (sorted_labels (set_iter h (flat_map Cosponsor t)))
    as [ xs | e2 ] eqn:Hx; simpl in H; [ | blame_sort H Hx; auto ].
  destruct (sorted_labels (set_iter h (xs ++ ys)))
    as [ u | e3 ] eqn:Hu; simpl in H.
  - assert (U : union_of h t u) by (exists ys, xs; auto).
    rewrite (create_of_union h t u U) in H'. discriminate.
  - blame_sort H Hu.
    apply sorted_labels_inv in Hy, Hx.
    destruct Hy as (_ & Py & _), Hx as (_ & Px & _).
    apply in_app_or in Hin. destruct Hin as [ Hin | Hin ]; [ right | left ].
    + apply (set_iter_elim h).
      now apply (Permutation_in _ (Permutation_sym Px)).
    + apply (set_iter_elim h).
      now apply (Permutation_in _ (Permutation_sym Py)).
Qed.

(** ** Well-formed labels *)

Lemma keyable_well_formed (item : str) :
  keyable item = true <-> well_formed_label item.
Proof.
  unfold keyable, well_formed_label, starts_with_digit.
  destruct item as [ | c rest ].
  - split; [ discriminate | intros [H _]; now contradiction H ].
  - destruct (isdigit db c).
    + destruct (py_int (partition_head (c :: rest))) as [ n | ].
      * split; auto. intros _. split; [ discriminate | eauto ].
      * split; [ discriminate | ]. intros [_ H].
        destruct (H eq_refl) as [n Hn]. discriminate.
    + split; auto. intros _. split; discriminate.
Qed.

Lemma all_keyable_well_formed (t : frame) :
  all_keyable t <-> well_formed_table t.
Proof.
  unfold all_keyable, well_formed_table. rewrite Forall_forall.
  split; intros H x Hx; apply keyable_well_formed; auto.
Qed.

Lemma create_returns (h : HashOrder) (t : frame) :
  well_formed_table t ->
  exists vs es, create_vertex_and_chord_lists h t = Ok (vs, es).
Proof. intros H. now apply create_total, all_keyable_well_formed. Qed.

(** ** Labels of ASCII characters *)

Lemma partition_head_plain (item : str) :
  forallb (fun c => (c <? 128)%N) item = true ->
  forallb (fun c => (c <? 128)%N) (partition_head item) = true.
Proof.
  induction item as [ | c item IH ]; simpl; auto.
  intros H. apply andb_true_iff in H. destruct H as [Hc Hitem].
  destruct (c =? 32)%N; simpl; auto. now rewrite Hc, IH.
Qed.

(** On a label of ASCII characters the key is that of the ASCII tables,
    whatever the rest of the character database. *)
Lemma label_key_plain (item : str) :
  forallb (fun c => (c <? 128)%N) item = true ->
  label_key item = plain_key item.
Proof.
  intros H. unfold label_key, plain_key, py_int.
  rewrite (partition_head_plain item H).
  destruct item as [ | c rest ]; auto.
  simpl in H. apply andb_true_iff in H. destruct H as [Hc _].
  apply N.ltb_lt in Hc. now rewrite (isdigit_ascii db c Hc).
Qed.

Lemma keyable_plain (item : str) :
  forallb (fun c => (c <? 128)%N) item = true ->
  (exists k, plain_key item = Ok k) -> keyable item = true.
Proof.
  intros H [k Hk]. rewrite <- (label_key_plain item H) in Hk.
  now apply label_key_Ok in Hk.
Qed.

(** ** The rule of the order, in words *)

Lemma num_of_number (item : str) :
  num_of item = match label_number item with
                | Some n => KInt n
                | None => KInf
                end.
Proof.
  unfold num_of, label_number. now destruct (starts_with_digit item).
Qed.

Lemma key_ltb_rule (a b : str) :
  key_ltb (key_of a) (key_of b) = true -> rule_before a b.
Proof.
  unfold key_ltb, key_of, rule_before. simpl. rewrite !num_of_number.
  destruct (label_number a) as [ x | ], (label_number b) as [ y | ];
    unfold num_eqb, num_ltb; try discriminate; auto.
  - destruct (Z.eqb_spec x y) as [ -> | Hne ].
    + intros H. right. split; auto. now apply str_ltb_spec.
    + intros H. left. now apply Z.ltb_lt.
  - apply str_ltb_spec.
Qed.

Lemma label_before_rule (a b : str) : label_before a b -> rule_before a b.
Proof.
  intros (ka & kb & Ha & Hb & Hlt). apply label_key_Ok in Ha, Hb.
  destruct Ha as [_ ->], Hb as [_ ->]. now apply key_ltb_rule.
Qed.

Lemma StronglySorted_impl {A : Type} (R R' : A -> A -> Prop) (l : list A) :
  (forall a b, R a b -> R' a b) -> StronglySorted R l -> StronglySorted R' l.
Proof.
  intros HR. induction 1 as [ | a l S IH Ha ]; constructor; auto.
  rewrite Forall_forall in *. auto.
Qed.

(** * The graph list builder: the claims *)

(** C1, as the code has it: whenever the builder returns, the names of
    the vertex list are the labels of the table (sponsors and
    co-sponsors), each exactly once, and every vertex has group 0; they
    are in the order of the key of the code: the labels whose first
    character is a digit first, by the integer before their first space
    and then by their text, the other labels after them, by their text.
    The builder does return when every label is well formed. *)
Theorem vertex_list_sorted_union (h : HashOrder) (t : frame) :
  (well_formed_table t ->
   exists vs es, create_vertex_and_chord_lists h t = Ok (vs, es)) /\
  (forall vs es,
     create_vertex_and_chord_lists h t = Ok (vs, es) ->
     NoDup (map name vs) /\
     (forall x, In x (map name vs) <->
                In x (map Sponsor t) \/ In x (flat_map Cosponsor t)) /\
     StronglySorted rule_before (map name vs) /\
     Forall (fun v => group v = 0%Z) vs).
Proof.
  split; [ apply create_returns | ]. intros vs es H.
  destruct (create_inv h t vs es H) as (u & Hu & -> & _).
  rewrite map_name_vertex_of.
  destruct (union_of_spec h t u Hu) as (K & N & I & S).
  repeat split; auto.
  - intros Hx. apply I in Hx. unfold labels in Hx. now apply in_app_or.
  - intros Hx. apply I. unfold labels. now apply in_or_app.
  - apply (StronglySorted_impl label_before); [ apply label_before_rule | ].
    apply sorted_strict; auto. rewrite Forall_forall. intros x Hx.
    unfold all_keyable in K. rewrite Forall_forall in K. now apply K, I.
  - apply Forall_forall. intros v Hv. apply in_map_iff in Hv.
    destruct Hv as (x & <- & _). reflexivity.
Qed.

(** C2: whenever the builder returns, its edges, read back through the
    vertex names, are the (sponsor, co-sponsor) pairs of the table with
    weight 1, in record order and in co-sponsor order within a record,
    repeated pairs kept; so there are as many edges as pairs. The
    builder returns when every label is well formed. *)
Theorem chord_list_one_per_pair (h : HashOrder) (t : frame) :
  (well_formed_table t ->
   exists vs es, create_vertex_and_chord_lists h t = Ok (vs, es)) /\
  (forall vs es,
     create_vertex_and_chord_lists h t = Ok (vs, es) ->
     map (read_back (map name vs)) es = sponsor_pairs t /\
     Forall (fun e => value e = 1%Z) es /\
     List.length es = list_sum (map (fun r => List.length (Cosponsor r)) t)).
Proof.
  split; [ apply create_returns | ]. intros vs es H.
  destruct (create_inv h t vs es H) as (u & Hu & -> & ->).
  rewrite map_name_vertex_of. repeat split.
  - apply read_back_rows. now apply (union_rows_labels_in h).
  - apply Forall_forall. intros e He. apply in_flat_map in He.
    destruct He as (r & _ & He). unfold row_chords in He.
    apply in_map_iff in He. destruct He as (x & <- & _). reflexivity.
  - apply length_rows_chords.
Qed.

(** C3: whenever the builder returns, the source and the target of every
    edge are positions of the vertex list; and the builder never fails
    in an index lookup: it fails only in the key of some label. *)
Theorem chord_indices_in_range (h : HashOrder) (t : frame) :
  (forall vs es,
     create_vertex_and_chord_lists h t = Ok (vs, es) ->
     Forall (fun e => (0 <= source e < List.length vs)%nat /\
                      (0 <= target e < List.length vs)%nat) es) /\
  (forall x, create_vertex_and_chord_lists h t <> Err (ValueError_index x)) /\
  (forall i, create_vertex_and_chord_lists h t <> Err (KeyError_pos i)) /\
  (well_formed_table t ->
   exists vs es, create_vertex_and_chord_lists h t = Ok (vs, es)).
Proof.
  repeat split; try apply create_returns.
  - intros vs es H.
    destruct (create_inv h t vs es H) as (u & Hu & -> & ->).
    pose proof (union_rows_labels_in h t u Hu) as Hin.
    rewrite Forall_forall in *. intros e He. apply in_flat_map in He.
    destruct He as (r & Hr & He). destruct (Hin r Hr) as [Hy Hxs].
    unfold row_chords in He. apply in_map_iff in He.
    destruct He as (x & <- & Hx). simpl. rewrite length_map.
    rewrite Forall_forall in Hxs.
    destruct (position_nth u (Sponsor r)) as [_ Hs].
    { apply Hy. intros E. rewrite E in Hx. contradiction. }
    destruct (position_nth u x (Hxs x Hx)) as [_ Ht]. lia.
  - intros x H. apply create_Err in H.
    destruct H as ([ H | [tok H] ] & _); discriminate.
  - intros i H. apply create_Err in H.
    destruct H as ([ H | [tok H] ] & _); discriminate.
Qed.

(** C8: two runs on the same table return the same vertex list and the
    same edge list, also when the two runs iterate over their sets in
    different orders; and if one run returns, so does the other. *)
Theorem builder_deterministic (h1 h2 : HashOrder) (t : frame) :
  (forall vs1 es1 vs2 es2,
     create_vertex_and_chord_lists h1 t = Ok (vs1, es1) ->
     create_vertex_and_chord_lists h2 t = Ok (vs2, es2) ->
     vs1 = vs2 /\ es1 = es2) /\
  (forall r, create_vertex_and_chord_lists h1 t = Ok r ->
             create_vertex_and_chord_lists h2 t = Ok r).
Proof.
  split.
  - intros vs1 es1 vs2 es2 H1 H2.
    apply (create_hash_irrelevant h1 h2) in H1.
    rewrite H1 in H2. inversion H2. auto.
  - intros r. apply create_hash_irrelevant.
Qed.

(** C9: the key of a label is defined exactly when the label is not
    empty and, if its first character is a digit, its text before the
    first space is read by [int]. The empty label fails in [item[0]],
    "3rd Reading" fails in [int]. The builder returns exactly when every
    label of the table is such a label, and when it fails it fails with
    the key failure of one of the labels. *)
Theorem label_key_partial :
  (forall item, (exists k, label_key item = Ok k) <-> well_formed_label item) /\
  label_key (u "") = Err IndexError /\
  label_key (u "3rd Reading") = Err (ValueError_int (u "3rd")) /\
  (forall h t,
     (exists vs es, create_vertex_and_chord_lists h t = Ok (vs, es)) <->
     well_formed_table t) /\
  (forall h t e,
     create_vertex_and_chord_lists h t = Err e ->
     (e = IndexError \/ exists tok, e = ValueError_int tok) /\
     exists item, In item (labels t) /\ label_key item = Err e).
Proof.
  split; [ | split; [ reflexivity | split; [ | split ] ] ].
  - intros item. rewrite <- keyable_well_formed. split.
    + intros [k Hk]. now apply label_key_Ok in Hk.
    + intros H. exists (key_of item). now apply label_key_keyable.
  - rewrite label_key_plain by reflexivity. reflexivity.
  - intros h t. rewrite <- all_keyable_well_formed. split.
    + intros (vs & es & H). apply create_inv in H.
      destruct H as (u & Hu & _). now apply union_of_spec in Hu.
    + apply create_total.
  - intros h t e. apply create_Err.
Qed.

(** C10: whenever the builder returns, a record whose sponsor is among
    its own co-sponsors yields an edge from the sponsor's vertex to
    itself, with weight 1. The builder returns when every label is well
    formed. *)
Theorem self_loops_kept (h : HashOrder) (t : frame) :
  (well_formed_table t ->
   exists vs es, create_vertex_and_chord_lists h t = Ok (vs, es)) /\
  (forall vs es r,
     create_vertex_and_chord_lists h t = Ok (vs, es) ->
     In r t -> In (Sponsor r) (Cosponsor r) ->
     exists e, In e es /\ source e = target e /\ value e = 1%Z /\
               nth_error (map name vs) (source e) = Some (Sponsor r)).
Proof.
  split; [ apply create_returns | ]. intros vs es r H Hr Hself.
  destruct (create_inv h t vs es H) as (u & Hu & -> & ->).
  rewrite map_name_vertex_of.
  exists {| source := position u (Sponsor r);
            target := position u (Sponsor r); value := 1 |}.
  repeat split.
  - apply in_flat_map. exists r. split; auto. unfold row_chords.
    apply in_map_iff. exists (Sponsor r). auto.
  - simpl. pose proof (union_rows_labels_in h t u Hu) as Hin.
    rewrite Forall_forall in Hin. destruct (Hin r Hr) as [Hy _].
    apply position_nth, Hy. intros E. rewrite E in Hself. contradiction.
Qed.

(** * The label ordering *)

Lemma sorts_before_lt (a b : str) :
  keyable a = true -> keyable b = true ->
  key_ltb (key_of a) (key_of b) = true -> sorts_before a b.
Proof.
  intros Ka Kb Hlt. unfold sorts_before, sorted_labels. simpl.
  unfold keyed. rewrite (label_key_keyable a Ka), (label_key_keyable b Kb).
  simpl. rewrite Hlt, (key_ltb_asym _ _ Hlt). auto.
Qed.

Lemma keyable_digit (a : str) (x : Z) :
  starts_with_digit a = true -> py_int (partition_head a) = Some x ->
  keyable a = true /\ num_of a = KInt x.
Proof.
  unfold keyable, num_of, starts_with_digit.
  destruct a as [ | c rest ]; [ discriminate | ].
  intros -> ->. auto.
Qed.

Lemma keyable_other (a : str) :
  a <> [] -> starts_with_digit a = false ->
  keyable a = true /\ num_of a = KInf.
Proof.
  unfold keyable, num_of, starts_with_digit.
  destruct a as [ | c rest ]; [ congruence | ].
  intros _ ->. auto.
Qed.

Lemma ascii_digit_plain (c : N) :
  ascii_digit c = true ->
  Py_ISSPACE c = false /\ (c =? 43)%N = false /\ (c =? 45)%N = false /\
  (0 <= digit_val c <= 9)%Z.
Proof.
  unfold ascii_digit, Py_ISSPACE, digit_val. intros H.
  apply andb_true_iff in H. destruct H as [H1 H2].
  apply N.leb_le in H1, H2.
  repeat split; try lia;
    repeat match goal with
           | |- context [(?a <=? ?b)%N] => destruct (N.leb_spec a b)
           | |- context [(?a =? ?b)%N] => destruct (N.eqb_spec a b)
           end; simpl; auto; lia.
Qed.

Lemma int_digits_all (l : list N) (acc : Z) (after_digit : bool) :
  forallb ascii_digit l = true -> (l <> [] \/ after_digit = true) ->
  (0 <= acc)%Z ->
  exists n, int_digits acc after_digit l = Some n /\ (0 <= n)%Z.
Proof.
  revert acc after_digit.
  induction l as [ | c l IH ]; cbn [int_digits forallb];
    intros acc b Hall Hne Hacc.
  - destruct Hne as [ | -> ]; [ congruence | eauto ].
  - apply andb_true_iff in Hall. destruct Hall as [Hc Hl]. rewrite Hc.
    destruct (ascii_digit_plain c Hc) as (_ & _ & _ & Hd).
    apply IH; auto. lia.
Qed.

Lemma lstrip_digit (c : N) (l : list N) :
  ascii_digit c = true -> lstrip (c :: l) = c :: l.
Proof.
  intros Hc. simpl. now destruct (ascii_digit_plain c Hc) as [-> _].
Qed.

Lemma strip_digits (l : list N) :
  forallb ascii_digit l = true -> strip l = l.
Proof.
  intros Hall. unfold strip.
  assert (E1 : lstrip l = l).
  { destruct l as [ | c l ]; auto. simpl in Hall.
    apply andb_true_iff in Hall. now apply lstrip_digit. }
  rewrite E1.
  assert (E2 : lstrip (rev l) = rev l).
  { assert (Hrev : forallb ascii_digit (rev l) = true).
    { rewrite forallb_forall in *. intros x Hx. apply Hall.
      now apply in_rev. }
    destruct (rev l) as [ | c l' ]; auto. simpl in Hrev.
    apply andb_true_iff in Hrev. now apply lstrip_digit. }
  rewrite E2. apply rev_involutive.
Qed.

Lemma long_from_string_digits (l : list N) :
  l <> [] -> forallb ascii_digit l = true ->
  exists n, long_from_string l = Some n /\ (0 <= n)%Z.
Proof.
  intros Hne Hall. unfold long_from_string. rewrite (strip_digits l Hall).
  destruct l as [ | c l ]; [ congruence | ].
  assert (Hc : ascii_digit c = true).
  { simpl in Hall. now apply andb_true_iff in Hall. }
  destruct (ascii_digit_plain c Hc) as (_ & -> & -> & _).
  apply int_digits_all; auto; try lia; left; discriminate.
Qed.

Lemma to_ascii_decimal (c : N) :
  is_decimal c = true -> ascii_digit (to_ascii c) = true.
Proof.
  unfold is_decimal, to_ascii.
  destruct (decimal db c) as [ d | ] eqn:Hd; [ intros _ | discriminate ].
  destruct (N.ltb_spec c 127) as [ Hlt | Hge ].
  - assert (H128 : (c < 128)%N) by lia.
    rewrite (decimal_ascii db c H128) in Hd.
    destruct (ascii_digit c); [ reflexivity | discriminate ].
  - rewrite (decimal_not_space db c d Hd).
    pose proof (decimal_value db c d Hd) as Hv.
    unfold ascii_digit. apply andb_true_iff.
    split; apply N.leb_le; lia.
Qed.

Lemma plain_decimal (c : N) :
  (c <? 128)%N = true -> is_decimal c = true -> ascii_digit c = true.
Proof.
  unfold is_decimal. intros Hc. apply N.ltb_lt in Hc.
  rewrite (decimal_ascii db c Hc).
  destruct (ascii_digit c); [ reflexivity | discriminate ].
Qed.

Lemma py_int_decimals (l : str) :
  l <> [] -> forallb is_decimal l = true ->
  exists n, py_int l = Some n /\ (0 <= n)%Z.
Proof.
  intros Hne Hall. unfold py_int.
  destruct (forallb (fun c => (c <? 128)%N) l) eqn:Hplain.
  - apply long_from_string_digits; auto.
    rewrite forallb_forall in *. intros c Hc.
    apply plain_decimal; auto.
  - apply long_from_string_digits.
    + destruct l; [ congruence | simpl; discriminate ].
    + rewrite forallb_forall in *. intros c Hc. apply in_map_iff in Hc.
      destruct Hc as (c0 & <- & Hc0). apply to_ascii_decimal; auto.
Qed.

Lemma numeric_prefix_int (a : str) :
  numeric_prefix a = true ->
  starts_with_digit a = true /\
  exists x, py_int (partition_head a) = Some x /\ (0 <= x)%Z.
Proof.
  unfold numeric_prefix. intros H. split.
  - destruct a as [ | c rest ]; [ discriminate | ]. simpl in *.
    destruct (c =? 32)%N; [ discriminate | ]. simpl in H.
    apply andb_true_iff in H. destruct H as [Hc _]. unfold is_decimal in Hc.
    destruct (decimal db c) as [ d | ] eqn:Hd; [ | discriminate ].
    apply (decimal_isdigit db c d Hd).
  - apply py_int_decimals.
    + destruct (partition_head a); [ discriminate H | discriminate ].
    + destruct (partition_head a); [ discriminate H | exact H ].
Qed.

Lemma perm_keyable (l l' : list str) :
  Permutation l l' -> Forall (fun x => keyable x = true) l' ->
  Forall (fun x => keyable x = true) l.
Proof.
  intros P H. rewrite Forall_forall in *. intros x Hx.
  apply H. now apply (Permutation_in _ P).
Qed.

Lemma label_le_rule (a b : str) :
  keyable a = true -> keyable b = true -> label_le a b ->
  a = b \/ rule_before a b.
Proof.
  intros Ka Kb Hle. destruct (str_dec a b) as [ | Hne ]; auto.
  right. now apply label_before_rule, label_le_before.
Qed.

(** C4, as the code has it: the ordering rule on the labels whose key
    is defined. A label whose first character is a digit sorts by the
    integer before its first space, ascending, and by its text among
    equal integers; a non-empty label whose first character is no digit
    sorts after all of those, and by its text among its like. A label
    whose text before the first space is a run of decimal digits is of
    the first kind. Every output of [sorted] is a permutation of its
    input in the order of that rule, and the three labels of the example
    are sorted to "3 Smith", "10 Jones", "Abel" from any arrangement. *)
Theorem label_order_rule :
  (forall a b x y,
     starts_with_digit a = true -> py_int (partition_head a) = Some x ->
     starts_with_digit b = true -> py_int (partition_head b) = Some y ->
     (x < y)%Z -> sorts_before a b) /\
  (forall a b x,
     starts_with_digit a = true -> py_int (partition_head a) = Some x ->
     starts_with_digit b = true -> py_int (partition_head b) = Some x ->
     str_lt a b -> sorts_before a b) /\
  (forall a b x,
     starts_with_digit a = true -> py_int (partition_head a) = Some x ->
     b <> [] -> starts_with_digit b = false -> sorts_before a b) /\
  (forall a b,
     a <> [] -> starts_with_digit a = false ->
     b <> [] -> starts_with_digit b = false ->
     str_lt a b -> sorts_before a b) /\
  (forall a,
     numeric_prefix a = true ->
     starts_with_digit a = true /\
     exists x, py_int (partition_head a) = Some x /\ (0 <= x)%Z) /\
  (forall l l',
     sorted_labels l = Ok l' ->
     Permutation l l' /\
     StronglySorted (fun a b => a = b \/ rule_before a b) l') /\
  (forall l,
     Permutation l [u "3 Smith"; u "10 Jones"; u "Abel"] ->
     sorted_labels l = Ok [u "3 Smith"; u "10 Jones"; u "Abel"]).
Proof.
  repeat apply conj.
  - intros a b x y Da Ia Db Ib Hlt.
    destruct (keyable_digit a x Da Ia) as [Ka Na].
    destruct (keyable_digit b y Db Ib) as [Kb Nb].
    apply sorts_before_lt; auto. unfold key_of, key_ltb. simpl.
    rewrite Na, Nb. unfold num_eqb, num_ltb.
    destruct (Z.eqb_spec x y) as [ E | _ ]; [ lia | now apply Z.ltb_lt ].
  - intros a b x Da Ia Db Ib Hlt.
    destruct (keyable_digit a x Da Ia) as [Ka Na].
    destruct (keyable_digit b x Db Ib) as [Kb Nb].
    apply sorts_before_lt; auto. unfold key_of, key_ltb. simpl.
    rewrite Na, Nb. unfold num_eqb. rewrite Z.eqb_refl.
    now apply str_ltb_spec.
  - intros a b x Da Ia Hb Db.
    destruct (keyable_digit a x Da Ia) as [Ka Na].
    destruct (keyable_other b Hb Db) as [Kb Nb].
    apply sorts_before_lt; auto. unfold key_of, key_ltb. simpl.
    now rewrite Na, Nb.
  - intros a b Ha Da Hb Db Hlt.
    destruct (keyable_other a Ha Da) as [Ka Na].
    destruct (keyable_other b Hb Db) as [Kb Nb].
    apply sorts_before_lt; auto. unfold key_of, key_ltb. simpl.
    rewrite Na, Nb. simpl. now apply str_ltb_spec.
  - apply numeric_prefix_int.
  - intros l l' H. apply sorted_labels_inv in H.
    destruct H as (K & P & S). split; auto.
    assert (K' : Forall (fun x => keyable x = true) l').
    { rewrite Forall_forall in *. intros x Hx. apply K.
      now apply (Permutation_in _ (Permutation_sym P)). }
    clear P K. induction S as [ | a l' S IH Ha ]; constructor.
    + apply IH. now inversion K'.
    + inversion K' as [ | ? ? Ka Kl ]; subst.
      rewrite Forall_forall in *. intros b Hb.
      apply label_le_rule; auto.
  - intros l P.
    destruct (sorted_labels_total l) as [r Hr].
    { apply (perm_keyable _ _ P).
      repeat constructor; apply keyable_plain;
        try reflexivity; eexists; reflexivity. }
    rewrite Hr. f_equal.
    apply (sorted_labels_perm l [u "3 Smith"; u "10 Jones"; u "Abel"]); auto.
    unfold sorted_labels. cbn [mapM]. unfold keyed.
    rewrite !label_key_plain by reflexivity. reflexivity.
Qed.

(** * Further properties of the graph list builder *)

Lemma create_steps (h : HashOrder) (t : frame) :
  create_vertex_and_chord_lists h t =
  (y_labels <- sorted_labels (set_iter h (map Sponsor t)) ;;
   x_labels <- sorted_labels (set_iter h (flat_map Cosponsor t)) ;;
   u <- sorted_labels (set_iter h (x_labels ++ y_labels)) ;;
   Ok (map vertex_of u, flat_map (row_chords u) t)).
Proof.
  destruct (sorted_labels (set_iter h (map Sponsor t)))
    as [ ys | e1 ] eqn:Hy;
    [ | unfold create_vertex_and_chord_lists; now rewrite Hy ].
  destruct (sorted_labels (set_iter h (flat_map Cosponsor t)))
    as [ xs | e2 ] eqn:Hx;
    [ | unfold create_vertex_and_chord_lists; now rewrite Hy, Hx ].
  destruct (sorted_labels (set_iter h (xs ++ ys))) as [ u | e3 ] eqn:Hu.
  - assert (U : union_of h t u) by (exists ys, xs; auto).
    rewrite (create_of_union h t u U). simpl. now rewrite Hu.
  - unfold create_vertex_and_chord_lists. rewrite Hy, Hx. simpl.
    now rewrite Hu.
Qed.

Lemma row_chords_columns (u : list str) (t1 t2 : frame) :
  map Sponsor t1 = map Sponsor t2 -> map Cosponsor t1 = map Cosponsor t2 ->
  flat_map (row_chords u) t1 = flat_map (row_chords u) t2.
Proof.
  revert t2. induction t1 as [ | r1 t1 IH ]; intros [ | r2 t2 ]; simpl;
    try discriminate; auto.
  intros Hs Hc. inversion Hs as [ [Hs1 Hs2] ]. inversion Hc as [ [Hc1 Hc2] ].
  rewrite (IH t2 Hs2 Hc2). unfold row_chords. now rewrite Hs1, Hc1.
Qed.

(** X1: the column of the bill identifiers plays no part: two tables
    with the same sponsors and the same co-sponsor lists give the same
    result, failures included. *)
Theorem bill_column_ignored (h : HashOrder) (t1 t2 : frame) :
  map Sponsor t1 = map Sponsor t2 -> map Cosponsor t1 = map Cosponsor t2 ->
  create_vertex_and_chord_lists h t1 = create_vertex_and_chord_lists h t2.
Proof.
  intros Hs Hc. rewrite !create_steps.
  rewrite !flat_map_concat_map, Hs, Hc.
  destruct (sorted_labels (set_iter h (map Sponsor t2))) as [ ys | ];
    simpl; auto.
  destruct (sorted_labels (set_iter h (List.concat (map Cosponsor t2))))
    as [ xs | ]; simpl; auto.
  destruct (sorted_labels (set_iter h (xs ++ ys))) as [ u | ]; simpl; auto.
  now rewrite (row_chords_columns u t1 t2 Hs Hc).
Qed.

Lemma labels_perm (t1 t2 : frame) :
  Permutation t1 t2 -> Permutation (labels t1) (labels t2).
Proof.
  intros P. unfold labels. apply Permutation_app.
  - now apply Permutation_map.
  - now apply Permutation_flat_map.
Qed.

Lemma sorted_same_elements (u1 u2 : list str) :
  NoDup u1 -> NoDup u2 -> (forall x, In x u1 <-> In x u2) ->
  StronglySorted label_le u1 -> StronglySorted label_le u2 -> u1 = u2.
Proof.
  intros N1 N2 I S1 S2. apply sorted_perm_unique; auto.
  now apply NoDup_Permutation.
Qed.

(** X2: the order of the records decides the order of the edges only:
    a table with the same records in another order gives the same
    vertex list, hence the same indices, and a rearrangement of the same
    edges. *)
Theorem record_order_moves_edges_only (h : HashOrder) (t1 t2 : frame)
    (vs : list vertex) (es1 : list chord) :
  Permutation t1 t2 ->
  create_vertex_and_chord_lists h t1 = Ok (vs, es1) ->
  exists es2,
    create_vertex_and_chord_lists h t2 = Ok (vs, es2) /\
    Permutation es1 es2.
Proof.
  intros P H. destruct (create_inv h t1 vs es1 H) as (u & Hu & -> & ->).
  destruct (union_of_spec h t1 u Hu) as (K1 & N1 & I1 & S1).
  pose proof (labels_perm t1 t2 P) as PL.
  destruct (union_of_total h t2) as [u2 Hu2].
  { unfold all_keyable in *. rewrite Forall_forall in *. intros x Hx.
    apply K1. now apply (Permutation_in _ (Permutation_sym PL)). }
  destruct (union_of_spec h t2 u2 Hu2) as (_ & N2 & I2 & S2).
  assert (E : u = u2).
  { apply sorted_same_elements; auto. intros x. rewrite I1, I2.
    split; apply Permutation_in; auto. now apply Permutation_sym. }
  subst u2. exists (flat_map (row_chords u) t2). split.
  - apply (create_of_union h t2 u Hu2).
  - now apply Permutation_flat_map.
Qed.

(** X3: the sorts of the sponsors and of the co-sponsors on their own
    add nothing to the result: the builder returns a pair of lists
    exactly when the builder that sorts the set of all the labels once
    returns it. *)
Theorem one_sort_suffices (h : HashOrder) (t : frame)
    (r : list vertex * list chord) :
  create_vertex_and_chord_lists h t = Ok r <-> one_sort_builder h t = Ok r.
Proof.
  assert (Hone : forall u, sorted_labels (set_iter h (labels t)) = Ok u ->
                           exists u0, union_of h t u0 /\ u0 = u).
  { intros u Hs. apply sorted_labels_inv in Hs. destruct Hs as (K & Pm & S).
    destruct (union_of_total h t) as [u0 Hu0].
    { unfold all_keyable. rewrite Forall_forall in *. intros x Hx.
      now apply K, set_iter_intro. }
    exists u0. split; auto.
    destruct (union_of_spec h t u0 Hu0) as (_ & N0 & I0 & S0).
    apply sorted_same_elements; auto.
    - eapply Permutation_NoDup; [ exact Pm | apply set_iter_NoDup ].
    - intros x. rewrite I0. rewrite <- (set_iter_In h (labels t)).
      split; apply Permutation_in; auto. now apply Permutation_sym. }
  assert (Hrun : forall u, union_of h t u ->
                   one_sort_builder h t =
                   Ok (map vertex_of u, flat_map (row_chords u) t)).
  { intros u Hu. destruct (union_of_spec h t u Hu) as (K & _ & I & _).
    destruct (sorted_labels_total (set_iter h (labels t))) as [u1 Hs].
    { unfold all_keyable in K. rewrite Forall_forall in *. intros x Hx.
      now apply K, (set_iter_elim h). }
    destruct (Hone u1 Hs) as (u0 & Hu0 & <-).
    rewrite (union_of_unique h h t u0 u Hu0 Hu) in Hs.
    unfold one_sort_builder. rewrite Hs. simpl.
    pose proof (pair_rows_Ok u [] t []) as Hrows. simpl in Hrows.
    rewrite Hrows; [ reflexivity | ].
    apply rows_labels_in. intros x. apply I. }
  split; intros H.
  - destruct r as [vs es].
    destruct (create_inv h t vs es H) as (u & Hu & -> & ->). now apply Hrun.
  - unfold one_sort_builder in H.
    destruct (sorted_labels (set_iter h (labels t))) as [ u | ] eqn:Hs;
      simpl in H; [ | discriminate ].
    destruct (Hone u eq_refl) as (u0 & Hu0 & ->).
    rewrite (create_of_union h t u Hu0).
    pose proof (Hrun u Hu0) as E. unfold one_sort_builder in E.
    rewrite Hs in E. simpl in E. congruence.
Qed.

Lemma list_index_Ok (l : list str) (x : str) (i : nat) :
  list_index l x = Ok i -> nth_error l i = Some x.
Proof.
  revert i. induction l as [ | y l IH ]; simpl; intros i; [ discriminate | ].
  destruct (str_eqb_spec y x) as [ -> | Hne ].
  - intros H. inversion H. reflexivity.
  - destruct (list_index l x) as [ j | e ]; simpl; [ | discriminate ].
    intros H. inversion H. simpl. now apply IH.
Qed.

Lemma list_index_nth (l : list str) (x : str) (i : nat) :
  NoDup l -> nth_error l i = Some x -> list_index l x = Ok i.
Proof.
  intros N. revert i. induction N as [ | y l Hy N IH ]; intros i.
  - destruct i; discriminate.
  - destruct i as [ | i ]; simpl.
    + intros H. inversion H. now rewrite str_eqb_refl.
    + intros H. destruct (str_eqb_spec y x) as [ -> | Hne ].
      * apply nth_error_In in H. contradiction.
      * now rewrite (IH i H).
Qed.

(** X4: in the lists the builder returns, positions and labels
    correspond one to one: the label at position [i] is looked up at
    [i], and a label looked up at [i] is the one at position [i]. An
    index of an edge therefore names one label. *)
Theorem vertex_index_round_trip (h : HashOrder) (t : frame)
    (vs : list vertex) (es : list chord) :
  create_vertex_and_chord_lists h t = Ok (vs, es) ->
  forall i x,
    nth_error (map name vs) i = Some x <->
    list_index (map name vs) x = Ok i.
Proof.
  intros H i x. destruct (create_inv h t vs es H) as (u & Hu & -> & _).
  rewrite map_name_vertex_of.
  destruct (union_of_spec h t u Hu) as (_ & N & _ & _).
  split; [ now apply list_index_nth | apply list_index_Ok ].
Qed.

(** X5: an edge from a vertex to itself comes from a record whose
    sponsor is among its own co-sponsors, and from nothing else: the
    returned edges hold such an edge exactly when the table holds such
    a record. *)
Theorem self_loop_only_from_self_sponsor (h : HashOrder) (t : frame)
    (vs : list vertex) (es : list chord) :
  create_vertex_and_chord_lists h t = Ok (vs, es) ->
  (exists e, In e es /\ source e = target e) <->
  (exists r, In r t /\ In (Sponsor r) (Cosponsor r)).
Proof.
  intros H. destruct (create_inv h t vs es H) as (u & Hu & -> & ->).
  pose proof (union_rows_labels_in h t u Hu) as Hin.
  rewrite Forall_forall in Hin. split.
  - intros (e & He & Heq). apply in_flat_map in He.
    destruct He as (r & Hr & He). exists r. split; auto.
    unfold row_chords in He. apply in_map_iff in He.
    destruct He as (x & <- & Hx). simpl in Heq.
    destruct (Hin r Hr) as [Hy Hxs]. rewrite Forall_forall in Hxs.
    destruct (position_nth u (Sponsor r)) as [Ns _].
    { apply Hy. intros E. rewrite E in Hx. contradiction. }
    destruct (position_nth u x (Hxs x Hx)) as [Nx _].
    rewrite Heq in Ns. rewrite Ns in Nx. inversion Nx. congruence.
  - intros (r & Hr & Hself).
    exists {| source := position u (Sponsor r);
              target := position u (Sponsor r); value := 1 |}.
    split; auto. apply in_flat_map. exists r. split; auto.
    unfold row_chords. apply in_map_iff. exists (Sponsor r). auto.
Qed.

Lemma length_labels (t : frame) (u : list str) :
  List.length (labels t) =
  (List.length t + List.length (flat_map (row_chords u) t))%nat.
Proof.
  unfold labels. rewrite length_app, length_map. f_equal.
  induction t as [ | r t IH ]; simpl; auto.
  rewrite !length_app, IH. unfold row_chords. now rewrite length_map.
Qed.

Lemma no_cosponsor_no_chord (u : list str) (t : frame) :
  (forall r, In r t -> Cosponsor r = []) -> flat_map (row_chords u) t = [].
Proof.
  induction t as [ | r t IH ]; simpl; auto. intros Hall.
  unfold row_chords at 1. rewrite (Hall r) by auto. simpl.
  apply IH. intros r' Hr'. apply Hall. auto.
Qed.

(** X6: the sizes of the two lists. There are at most as many vertices
    as records and edges together; a table with a record gives a
    vertex; and there is no edge exactly when no record has a
    co-sponsor. *)
Theorem list_sizes (h : HashOrder) (t : frame)
    (vs : list vertex) (es : list chord) :
  create_vertex_and_chord_lists h t = Ok (vs, es) ->
  (List.length vs <= List.length t + List.length es)%nat /\
  (t <> [] -> vs <> []) /\
  (es = [] <-> forall r, In r t -> Cosponsor r = []).
Proof.
  intros H. destruct (create_inv h t vs es H) as (u & Hu & -> & ->).
  destruct (union_of_spec h t u Hu) as (_ & N & I & _).
  split; [ | split ].
  - rewrite length_map, <- (length_labels t u).
    apply NoDup_incl_length; [ exact N | ]. intros x Hx. now apply I.
  - destruct t as [ | r t ]; [ congruence | ]. intros _ E.
    assert (Hin : In (Sponsor r) u) by (apply I; simpl; auto).
    destruct u; [ contradiction | discriminate ].
  - split.
    + intros E r Hr. destruct (Cosponsor r) as [ | x xs ] eqn:Hc; auto.
      assert (Hin : In {| source := position u (Sponsor r);
                          target := position u x; value := 1 |}
                       (flat_map (row_chords u) t)).
      { apply in_flat_map. exists r. split; auto. unfold row_chords.
        rewrite Hc. simpl. auto. }
      rewrite E in Hin. contradiction.
    + apply no_cosponsor_no_chord.
Qed.

Lemma StronglySorted_nth {A : Type} (R : A -> A -> Prop) (l : list A) :
  StronglySorted R l ->
  forall i j a b,
    (i < j)%nat -> nth_error l i = Some a -> nth_error l j = Some b -> R a b.
Proof.
  induction 1 as [ | x l S IH Hx ]; intros i j a b Hij Ha Hb.
  - destruct i; discriminate.
  - destruct j as [ | j ]; [ lia | ]. simpl in Hb.
    destruct i as [ | i ]; simpl in Ha.
    + inversion Ha; subst. rewrite Forall_forall in Hx.
      apply Hx. now apply nth_error_In in Hb.
    + apply (IH i j); auto. lia.
Qed.

(** X7: in the vertex list the labels that start with a digit come
    first, in non-decreasing order of the integer before their first
    space: a label at a later position than a label that starts with no
    digit starts with no digit either. *)
Theorem numbered_labels_first (h : HashOrder) (t : frame)
    (vs : list vertex) (es : list chord) :
  create_vertex_and_chord_lists h t = Ok (vs, es) ->
  forall i j a b,
    (i < j)%nat ->
    nth_error (map name vs) i = Some a ->
    nth_error (map name vs) j = Some b ->
    (starts_with_digit b = true -> starts_with_digit a = true) /\
    (forall x y,
       starts_with_digit a = true -> py_int (partition_head a) = Some x ->
       starts_with_digit b = true -> py_int (partition_head b) = Some y ->
       (x <= y)%Z).
Proof.
  intros H i j a b Hij Ha Hb.
  destruct (create_inv h t vs es H) as (u & Hu & -> & _).
  rewrite map_name_vertex_of in Ha, Hb.
  destruct (union_of_spec h t u Hu) as (K & _ & I & S).
  pose proof (StronglySorted_nth label_le u S i j a b Hij Ha Hb) as Hle.
  unfold label_le, key_le, key_of, key_ltb in Hle. simpl in Hle.
  assert (Ka : keyable a = true).
  { unfold all_keyable in K. rewrite Forall_forall in K.
    apply K, I. now apply nth_error_In in Ha. }
  split.
  - intros Db. destruct (starts_with_digit a) eqn:Da; auto.
    assert (Na : a <> []) by (intros ->; discriminate).
    destruct (keyable_other a Na Da) as [_ Ea].
    assert (Kb : keyable b = true).
    { unfold all_keyable in K. rewrite Forall_forall in K.
      apply K, I. now apply nth_error_In in Hb. }
    apply keyable_well_formed in Kb. destruct Kb as [_ Hint].
    destruct (Hint Db) as [y Ib].
    destruct (keyable_digit b y Db Ib) as [_ Eb].
    rewrite Ea, Eb in Hle. discriminate.
  - intros x y Da Ia Db Ib.
    destruct (keyable_digit a x Da Ia) as [_ Ea].
    destruct (keyable_digit b y Db Ib) as [_ Eb].
    rewrite Ea, Eb in Hle. unfold num_eqb, num_ltb in Hle.
    destruct (Z.eqb_spec y x) as [ | Hne ]; [ lia | ].
    apply Z.ltb_ge in Hle. lia.
Qed.

(** ** The order of the labels *)

Lemma label_before_keys (a b : str) :
  label_before a b <->
  keyable a = true /\ keyable b = true /\
  key_ltb (key_of a) (key_of b) = true.
Proof.
  split.
  - intros (ka & kb & Ha & Hb & Hlt). apply label_key_Ok in Ha, Hb.
    destruct Ha as [Ka ->], Hb as [Kb ->]. auto.
  - intros (Ka & Kb & Hlt). exists (key_of a), (key_of b).
    repeat split; auto using label_key_keyable.
Qed.

(** X8: the key makes the labels a strict total order: no label sorts
    before itself, sorting before is transitive and one way only, and
    of two different labels with a key one sorts before the other: two
    different labels never tie, the label being the second component of
    its key. *)
Theorem label_order_strict_total :
  (forall a, ~ label_before a a) /\
  (forall a b, label_before a b -> ~ label_before b a) /\
  (forall a b c, label_before a b -> label_before b c -> label_before a c) /\
  (forall a b,
     well_formed_label a -> well_formed_label b -> a <> b ->
     label_before a b \/ label_before b a).
Proof.
  split; [ | split; [ | split ] ].
  - intros a H. apply label_before_keys in H. destruct H as (_ & _ & H).
    rewrite key_ltb_irrefl in H. discriminate.
  - intros a b H1 H2. apply label_before_keys in H1, H2.
    destruct H1 as (_ & _ & H1), H2 as (_ & _ & H2).
    rewrite (key_ltb_asym _ _ H1) in H2. discriminate.
  - intros a b c H1 H2. apply label_before_keys in H1, H2.
    destruct H1 as (Ka & _ & H1), H2 as (_ & Kc & H2).
    apply label_before_keys. repeat split; auto.
    now apply (key_ltb_trans _ (key_of b)).
  - intros a b Wa Wb Hne. apply keyable_well_formed in Wa, Wb.
    destruct (key_ltb_total (key_of a) (key_of b)) as [ H | H ].
    + unfold key_of. congruence.
    + left. now apply label_before_keys.
    + right. now apply label_before_keys.
Qed.

(** ** [sorted] once more *)

Lemma mapM_keyed_first_failure (pre post : list str) (x : str)
    (e : exn) :
  Forall (fun y => keyable y = true) pre -> label_key x = Err e ->
  mapM keyed (pre ++ x :: post) = Err e.
Proof.
  intros Hpre Hx. induction Hpre as [ | y pre Hy _ IH ]; simpl.
  - unfold keyed at 1. now rewrite Hx.
  - unfold keyed at 1. rewrite (label_key_keyable y Hy). simpl.
    now rewrite IH.
Qed.

(** X9: [sorted] raises the key failure of the first label, in the
    order it is given them, that has no key, whatever follows that
    label: no part of the list is returned. *)
Theorem sorted_first_failure (pre post : list str) (x : str)
    (e : exn) :
  Forall well_formed_label pre -> label_key x = Err e ->
  sorted_labels (pre ++ x :: post) = Err e.
Proof.
  intros Hpre Hx. unfold sorted_labels.
  rewrite (mapM_keyed_first_failure pre post x e); auto.
  rewrite Forall_forall in *. intros y Hy.
  now apply keyable_well_formed, Hpre.
Qed.

(** X10: what [sorted] returns is sorted already, and it depends on
    the labels given, repeated ones included, not on their arrangement:
    sorting the result, or any rearrangement of the input, returns the
    same list. *)
Theorem sorted_canonical (l l' : list str) :
  sorted_labels l = Ok l' ->
  sorted_labels l' = Ok l' /\
  (forall l2, Permutation l l2 -> sorted_labels l2 = Ok l').
Proof.
  intros H.
  assert (G : forall l2, Permutation l l2 -> sorted_labels l2 = Ok l').
  { intros l2 P. destruct (sorted_labels_total l2) as [r Hr].
    - apply sorted_labels_inv in H. destruct H as (K & _ & _).
      apply (perm_keyable _ _ (Permutation_sym P) K).
    - rewrite Hr. f_equal. symmetry.
      apply (sorted_labels_perm l l2 l' r); auto. }
  split; auto. apply G.
  apply sorted_labels_inv in H. now destruct H as (_ & P & _).
Qed.

End Scraper.

(** * The builder on given tables *)

(** Two character databases that give the same keys to the labels of a
    list sort it alike. *)
Lemma sorted_labels_ext (db1 db2 : CharDB) (l : list str) :
  (forall x, In x l -> label_key db1 x = label_key db2 x) ->
  sorted_labels db1 l = sorted_labels db2 l.
Proof.
  intros H. unfold sorted_labels.
  assert (E : mapM (keyed db1) l = mapM (keyed db2) l).
  { induction l as [ | a l IH ]; simpl; auto.
    unfold keyed at 1 3. rewrite (H a) by (now left).
    rewrite IH; auto. intros x Hx. apply H. now right. }
  now rewrite E.
Qed.

Lemma create_ext (db1 db2 : CharDB) (h : HashOrder) (t : frame) :
  (forall x, In x (labels t) -> label_key db1 x = label_key db2 x) ->
  create_vertex_and_chord_lists db1 h t =
  create_vertex_and_chord_lists db2 h t.
Proof.
  intros H. unfold create_vertex_and_chord_lists.
  assert (Ey : sorted_labels db1 (set_iter h (map Sponsor t)) =
               sorted_labels db2 (set_iter h (map Sponsor t))).
  { apply sorted_labels_ext. intros x Hx. apply H. unfold labels.
    apply in_or_app. left. now apply (set_iter_elim h). }
  assert (Ex : sorted_labels db1 (set_iter h (flat_map Cosponsor t)) =
               sorted_labels db2 (set_iter h (flat_map Cosponsor t))).
  { apply sorted_labels_ext. intros x Hx. apply H. unfold labels.
    apply in_or_app. right. now apply (set_iter_elim h). }
  rewrite Ey, Ex.
  destruct (sorted_labels db2 (set_iter h (map Sponsor t)))
    as [ ys | ] eqn:Hy; simpl; auto.
  destruct (sorted_labels db2 (set_iter h (flat_map Cosponsor t)))
    as [ xs | ] eqn:Hx; simpl; auto.
  assert (Eu : sorted_labels db1 (set_iter h (xs ++ ys)) =
               sorted_labels db2 (set_iter h (xs ++ ys))).
  { apply sorted_labels_ext. intros x Hin. apply H.
    apply (set_iter_elim h) in Hin.
    apply sorted_labels_inv in Hy, Hx.
    destruct Hy as (_ & Py & _), Hx as (_ & Px & _).
    unfold labels. apply in_or_app. apply in_app_or in Hin.
    destruct Hin as [ Hin | Hin ].
    - right. apply (set_iter_elim h).
      now apply (Permutation_in _ (Permutation_sym Px)).
    - left. apply (set_iter_elim h).
      now apply (Permutation_in _ (Permutation_sym Py)). }
  now rewrite Eu.
Qed.

(** On a table of ASCII labels every character database gives the result
    of the sample one. *)
Lemma create_plain (db : CharDB) (h : HashOrder) (t : frame) :
  Forall (fun x => forallb (fun c => (c <? 128)%N) x = true) (labels t) ->
  create_vertex_and_chord_lists db h t =
  create_vertex_and_chord_lists sample_db h t.
Proof.
  intros H. apply create_ext. intros x Hx. rewrite Forall_forall in H.
  now rewrite !label_key_plain by (now apply H).
Qed.

(** C5: on the scenario table the builder returns the vertices
    "1 Alpha", "2 Beta", "3 Gamma" and the edges (0,1,1), (1,0,1),
    (1,2,1), in that order, whatever the order of set iteration,
    whatever the bill identifiers and whatever the character database
    beyond ASCII. *)
Theorem scenario_result (db : CharDB) (h : HashOrder)
    (bill1 bill2 : string) :
  create_vertex_and_chord_lists db h (scenario_table bill1 bill2) =
  Ok (scenario_vertices, scenario_chords).
Proof.
  apply (create_hash_irrelevant db nodup_order).
  rewrite create_plain by (repeat constructor).
  vm_compute. reflexivity.
Qed.

(** ** The definitions at work *)

Example py_int_plain : py_int sample_db (u "10") = Some 10%Z.
Proof. reflexivity. Qed.

Example py_int_stripped : py_int sample_db (u "3" ++ [9%N]) = Some 3%Z.
Proof. reflexivity. Qed.

Example py_int_underscore : py_int sample_db (u "1_0") = Some 10%Z.
Proof. reflexivity. Qed.

Example py_int_signed : py_int sample_db (u "-5") = Some (-5)%Z.
Proof. reflexivity. Qed.

Example py_int_ordinal : py_int sample_db (u "3rd") = None.
Proof. reflexivity. Qed.

Example py_int_empty : py_int sample_db (u "") = None.
Proof. reflexivity. Qed.

(** [int] reads the Arabic-Indic digits and skips a no-break space; it
    does not read a superscript two, and it does not skip the separator
    U+001C. *)
Example py_int_arabic_indic :
  py_int sample_db [1633%N; 1632%N] = Some 10%Z.
Proof. reflexivity. Qed.

Example py_int_no_break_space :
  py_int sample_db (u "3" ++ [160%N]) = Some 3%Z.
Proof. reflexivity. Qed.

Example py_int_superscript : py_int sample_db [178%N] = None.
Proof. reflexivity. Qed.

Example py_int_separator :
  py_int sample_db (u "3" ++ [28%N]) = None /\
  py_int sample_db (u "3" ++ [28%N; 160%N]) = None.
Proof. split; reflexivity. Qed.

Example partition_head_space : partition_head (u " 5 X") = u "".
Proof. reflexivity. Qed.

Example label_key_signed :
  label_key sample_db (u "-5 X") = Ok (KInf, u "-5 X").
Proof. reflexivity. Qed.

(** A superscript two is a digit that [int] does not read: the key
    fails. An Arabic-Indic three is read as 3, and so is "3" before a
    no-break space, which is no space to [partition]. *)
Example label_key_superscript :
  label_key sample_db (178%N :: u " X") = Err (ValueError_int [178%N]).
Proof. reflexivity. Qed.

Example label_key_arabic_indic :
  label_key sample_db (1635%N :: u " Smith") =
  Ok (KInt 3, 1635%N :: u " Smith").
Proof. reflexivity. Qed.

Example label_key_no_break_space :
  label_key sample_db (u "3" ++ 160%N :: u " X") =
  Ok (KInt 3, u "3" ++ 160%N :: u " X").
Proof. reflexivity. Qed.

Example sorted_labels_arabic_indic :
  sorted_labels sample_db [u "10 Jones"; 1635%N :: u " Smith"] =
  Ok [1635%N :: u " Smith"; u "10 Jones"].
Proof. reflexivity. Qed.

Example sorted_labels_mixed :
  sorted_labels sample_db
    [u "Abel"; u "10 Jones"; u "3 Smith"; u "3 Adams"; u "-5 X"; u "Abel"] =
  Ok [u "3 Adams"; u "3 Smith"; u "10 Jones"; u "-5 X"; u "Abel"; u "Abel"].
Proof. reflexivity. Qed.

Example sorted_labels_signed :
  sorted_labels sample_db [u "-5 X"; u "Abel"; u "3 Y"] =
  Ok [u "3 Y"; u "-5 X"; u "Abel"].
Proof. reflexivity. Qed.

Example sorted_labels_case :
  sorted_labels sample_db [u "abel"; u "Zed"] = Ok [u "Zed"; u "abel"].
Proof. reflexivity. Qed.

Example sorted_labels_first_failure :
  sorted_labels sample_db [u "Abel"; u ""; u "3rd Reading"] = Err IndexError.
Proof. reflexivity. Qed.

Example builder_failure_depends_on_order :
  create_vertex_and_chord_lists sample_db nodup_order
    [ {| Sponsor := u ""; Cosponsor := []; Bill := "s1" |};
      {| Sponsor := u "3rd Reading"; Cosponsor := []; Bill := "s2" |} ] =
    Err IndexError /\
  create_vertex_and_chord_lists sample_db rev_nodup_order
    [ {| Sponsor := u ""; Cosponsor := []; Bill := "s1" |};
      {| Sponsor := u "3rd Reading"; Cosponsor := []; Bill := "s2" |} ] =
    Err (ValueError_int (u "3rd")).
Proof. split; reflexivity. Qed.

(** ** The claims on given tables *)

Lemma vertex_list_sorted_union_witness :
  create_vertex_and_chord_lists sample_db rev_nodup_order loop_table =
    Ok (loop_vertices, loop_chords) /\
  NoDup (map name loop_vertices) /\
  StronglySorted (rule_before sample_db) (map name loop_vertices).
Proof.
  split; [ vm_compute; reflexivity | ].
  destruct (proj2 (vertex_list_sorted_union sample_db rev_nodup_order
                     loop_table)
              loop_vertices loop_chords) as (N & _ & S & _).
  - vm_compute. reflexivity.
  - split; [ exact N | exact S ].
Defined.

(** C1, as the specification words it, fails on tables on which the
    builder returns. With "numeric" read as "a run of decimal digits",
    "1_0 A" has no numeric prefix and "20 B" has one, yet "1_0 A" comes
    first: [int] reads "1_0" as 10. With "numeric" read as "read by
    [int]", "-5 X" has the prefix -5 and "3 Y" the prefix 3, yet "-5 X"
    comes last: its first character is no digit. *)
Lemma vertex_list_sorted_union_counterexample :
  create_vertex_and_chord_lists sample_db nodup_order underscore_table =
    Ok ([vertex_of (u "1_0 A"); vertex_of (u "20 B")],
        [ {| source := 1; target := 0; value := 1 |} ]) /\
  numeric_prefix sample_db (u "1_0 A") = false /\
  numeric_prefix sample_db (u "20 B") = true /\
  ~ numeric_first sample_db [u "1_0 A"; u "20 B"] /\
  create_vertex_and_chord_lists sample_db nodup_order signed_table =
    Ok ([vertex_of (u "3 Y"); vertex_of (u "-5 X")],
        [ {| source := 1; target := 0; value := 1 |} ]) /\
  py_int sample_db (partition_head (u "3 Y")) = Some 3%Z /\
  py_int sample_db (partition_head (u "-5 X")) = Some (-5)%Z /\
  ~ numeric_ascending sample_db [u "3 Y"; u "-5 X"] /\
  ~ (forall h t vs es,
       create_vertex_and_chord_lists sample_db h t = Ok (vs, es) ->
       numeric_first sample_db (map name vs)) /\
  ~ (forall h t vs es,
       create_vertex_and_chord_lists sample_db h t = Ok (vs, es) ->
       numeric_ascending sample_db (map name vs)).
Proof.
  assert (F : ~ numeric_first sample_db [u "1_0 A"; u "20 B"]).
  { intros H.
    specialize (H 0%nat 1%nat (u "1_0 A") (u "20 B")).
    discriminate H; (lia || reflexivity). }
  assert (A : ~ numeric_ascending sample_db [u "3 Y"; u "-5 X"]).
  { intros H.
    specialize (H 0%nat 1%nat (u "3 Y") (u "-5 X") 3%Z (-5)%Z).
    assert (C : (3 <= -5)%Z) by (apply H; (lia || reflexivity)).
    lia. }
  repeat apply conj; try reflexivity; try assumption.
  - intros H. apply F.
    apply (H nodup_order underscore_table
             [vertex_of (u "1_0 A"); vertex_of (u "20 B")]
             [ {| source := 1; target := 0; value := 1 |} ]).
    reflexivity.
  - intros H. apply A.
    apply (H nodup_order signed_table
             [vertex_of (u "3 Y"); vertex_of (u "-5 X")]
             [ {| source := 1; target := 0; value := 1 |} ]).
    reflexivity.
Qed.

Lemma chord_list_one_per_pair_witness :
  create_vertex_and_chord_lists sample_db rev_nodup_order loop_table =
    Ok (loop_vertices, loop_chords) /\
  map (read_back (map name loop_vertices)) loop_chords =
    sponsor_pairs loop_table /\
  List.length loop_chords = 4%nat.
Proof.
  split; [ vm_compute; reflexivity | ].
  destruct (proj2 (chord_list_one_per_pair sample_db rev_nodup_order
                     loop_table)
              loop_vertices loop_chords) as (R & _ & L).
  - vm_compute. reflexivity.
  - split; [ exact R | exact L ].
Defined.

Lemma chord_indices_in_range_witness :
  Forall (fun e => (0 <= source e < 2)%nat /\ (0 <= target e < 2)%nat)
    loop_chords.
Proof.
  apply (proj1 (chord_indices_in_range sample_db rev_nodup_order loop_table)
           loop_vertices loop_chords).
  vm_compute. reflexivity.
Defined.

Lemma builder_deterministic_witness :
  create_vertex_and_chord_lists sample_db nodup_order loop_table =
  Ok (loop_vertices, loop_chords).
Proof.
  apply (proj2 (builder_deterministic sample_db rev_nodup_order nodup_order
                  loop_table)).
  vm_compute. reflexivity.
Defined.

Lemma label_key_partial_witness :
  exists vs es,
    create_vertex_and_chord_lists sample_db nodup_order loop_table =
    Ok (vs, es).
Proof.
  destruct (label_key_partial sample_db) as (Hkey & _ & _ & Hrun & _).
  apply (proj2 (Hrun nodup_order loop_table)).
  intros item Hin. apply Hkey.
  simpl in Hin.
  repeat (destruct Hin as [ <- | Hin ];
          [ eexists; vm_compute; reflexivity | ]).
  contradiction.
Defined.

Lemma self_loops_kept_witness :
  exists e, In e loop_chords /\ source e = target e /\ value e = 1%Z /\
            nth_error (map name loop_vertices) (source e) = Some (u "Reid").
Proof.
  apply (proj2 (self_loops_kept sample_db rev_nodup_order loop_table)
           loop_vertices loop_chords
           {| Sponsor := u "Reid";
              Cosponsor := [u "Reid"; u "12 Kirk"; u "Reid"];
              Bill := "s7" |}).
  - vm_compute. reflexivity.
  - simpl. auto.
  - simpl. auto.
Defined.

Lemma label_order_rule_witness :
  sorts_before sample_db (u "3 Smith") (u "10 Jones") /\
  sorts_before sample_db (u "10 Jones") (u "Abel") /\
  sorts_before sample_db (u "Abel") (u "Reid") /\
  sorts_before sample_db (1635%N :: u " Smith") (u "10 Jones") /\
  sorted_labels sample_db [u "Abel"; u "3 Smith"; u "10 Jones"] =
    Ok [u "3 Smith"; u "10 Jones"; u "Abel"].
Proof.
  destruct (label_order_rule sample_db)
    as (Hlt & _ & Hinf & Hstr & _ & _ & Hex).
  split; [ | split; [ | split; [ | split ] ] ].
  - apply (Hlt (u "3 Smith") (u "10 Jones") 3%Z 10%Z); reflexivity.
  - apply (Hinf (u "10 Jones") (u "Abel") 10%Z); try reflexivity.
    discriminate.
  - apply (Hstr (u "Abel") (u "Reid")); try reflexivity; try discriminate.
    apply str_ltb_spec. reflexivity.
  - apply (Hlt (1635%N :: u " Smith") (u "10 Jones") 3%Z 10%Z); reflexivity.
  - apply Hex.
    apply (Permutation_cons_app [u "3 Smith"; u "10 Jones"] [] (u "Abel")).
    simpl. apply Permutation_refl.
Defined.

(** C4, as the specification words it, fails on labels that have a key.
    With "numeric" read as "a run of decimal digits", "20 B" has a
    numeric prefix and "1_0 A" has none, yet "1_0 A" is sorted first,
    by the 10 that [int] reads. With "numeric" read as "read by [int]",
    "-5 X" has the smaller prefix, yet "3 Y" is sorted first: the key
    looks at the first character only, and '-' is no digit. And the
    labels without a number are in the order of their code points, not
    of the alphabet: "Zed" before "abel". *)
Lemma label_order_counterexample :
  numeric_prefix sample_db (u "20 B") = true /\
  numeric_prefix sample_db (u "1_0 A") = false /\
  sorted_labels sample_db [u "20 B"; u "1_0 A"] =
    Ok [u "1_0 A"; u "20 B"] /\
  ~ sorts_before sample_db (u "20 B") (u "1_0 A") /\
  ~ (forall a b, numeric_prefix sample_db a = true ->
                 numeric_prefix sample_db b = false ->
                 sorts_before sample_db a b) /\
  py_int sample_db (partition_head (u "-5 X")) = Some (-5)%Z /\
  py_int sample_db (partition_head (u "3 Y")) = Some 3%Z /\
  sorted_labels sample_db [u "-5 X"; u "3 Y"] = Ok [u "3 Y"; u "-5 X"] /\
  ~ sorts_before sample_db (u "-5 X") (u "3 Y") /\
  ~ (forall a b x y,
       py_int sample_db (partition_head a) = Some x ->
       py_int sample_db (partition_head b) = Some y ->
       (x < y)%Z -> sorts_before sample_db a b) /\
  sorted_labels sample_db [u "abel"; u "Zed"] = Ok [u "Zed"; u "abel"].
Proof.
  assert (N1 : ~ sorts_before sample_db (u "20 B") (u "1_0 A")).
  { intros [H _]. vm_compute in H. discriminate. }
  assert (N2 : ~ sorts_before sample_db (u "-5 X") (u "3 Y")).
  { intros [H _]. vm_compute in H. discriminate. }
  repeat apply conj; try reflexivity; try assumption.
  - intros H. apply N1. apply H; reflexivity.
  - intros H. apply N2. apply (H _ _ (-5)%Z 3%Z); (reflexivity || lia).
Qed.

(** ** The further properties on given tables *)

Lemma bill_column_ignored_witness :
  create_vertex_and_chord_lists sample_db nodup_order
    (scenario_table "s1" "s2") =
  create_vertex_and_chord_lists sample_db nodup_order
    (scenario_table "" "hr3590").
Proof.
  apply (bill_column_ignored sample_db nodup_order); reflexivity.
Defined.

Lemma record_order_moves_edges_only_witness :
  exists es2,
    create_vertex_and_chord_lists sample_db nodup_order (rev loop_table) =
      Ok (loop_vertices, es2) /\
    Permutation loop_chords es2.
Proof.
  apply (record_order_moves_edges_only sample_db nodup_order loop_table).
  - apply Permutation_rev.
  - vm_compute. reflexivity.
Defined.

Lemma one_sort_suffices_witness :
  one_sort_builder sample_db rev_nodup_order loop_table =
  Ok (loop_vertices, loop_chords).
Proof.
  apply (proj1 (one_sort_suffices sample_db rev_nodup_order loop_table
                  (loop_vertices, loop_chords))).
  vm_compute. reflexivity.
Defined.

Lemma vertex_index_round_trip_witness :
  list_index (map name loop_vertices) (u "Reid") = Ok 1%nat.
Proof.
  apply (proj1 (vertex_index_round_trip sample_db rev_nodup_order loop_table
                  loop_vertices loop_chords eq_refl 1%nat (u "Reid"))).
  reflexivity.
Defined.

Lemma self_loop_only_from_self_sponsor_witness :
  exists r, In r loop_table /\ In (Sponsor r) (Cosponsor r).
Proof.
  apply (proj1 (self_loop_only_from_self_sponsor sample_db rev_nodup_order
                  loop_table loop_vertices loop_chords eq_refl)).
  exists {| source := 1; target := 1; value := 1 |}. simpl. auto.
Defined.

Lemma list_sizes_witness :
  (List.length loop_vertices <=
   List.length loop_table + List.length loop_chords)%nat.
Proof.
  apply (list_sizes sample_db rev_nodup_order loop_table loop_vertices
           loop_chords).
  vm_compute. reflexivity.
Defined.

Lemma numbered_labels_first_witness :
  starts_with_digit sample_db (u "1 Alpha") = true /\ (1 <= 2)%Z.
Proof.
  destruct (numbered_labels_first sample_db nodup_order
              (scenario_table "s1" "s2")
              scenario_vertices scenario_chords eq_refl
              0%nat 1%nat (u "1 Alpha") (u "2 Beta"))
    as [Hfirst Hle]; [ lia | reflexivity | reflexivity | ].
  split.
  - apply Hfirst. reflexivity.
  - apply (Hle 1%Z 2%Z); reflexivity.
Defined.

Lemma label_order_strict_total_witness :
  label_before sample_db (u "12 Kirk") (u "Reid") \/
  label_before sample_db (u "Reid") (u "12 Kirk").
Proof.
  destruct (label_order_strict_total sample_db) as (_ & _ & _ & Htotal).
  apply Htotal;
    [ split; [ discriminate | intros _; exists 12%Z; reflexivity ]
    | split; [ discriminate | intros H; discriminate H ]
    | discriminate ].
Defined.

Lemma sorted_first_failure_witness :
  sorted_labels sample_db ([u "Abel"] ++ u "" :: [u "3rd Reading"]) =
  Err IndexError.
Proof.
  apply sorted_first_failure; [ | reflexivity ].
  constructor; [ | constructor ].
  split; [ discriminate | intros H; discriminate H ].
Defined.

Lemma sorted_canonical_witness :
  sorted_labels sample_db [u "3 Smith"; u "10 Jones"; u "Abel"; u "Abel"] =
  Ok [u "3 Smith"; u "10 Jones"; u "Abel"; u "Abel"].
Proof.
  apply (proj1 (sorted_canonical sample_db
                  [u "Abel"; u "10 Jones"; u "Abel"; u "3 Smith"]
                  [u "3 Smith"; u "10 Jones"; u "Abel"; u "Abel"] eq_refl)).
Defined.

(** * The table builder *)

Lemma getitem_field_Some (v x : json) (k : string) :
  field k v = Some x -> getitem v k = Ok x.
Proof.
  destruct v; simpl; try discriminate. now intros ->.
Qed.

Lemma getitem_field_None (v : json) (k : string) :
  field k v = None -> exists e, getitem v k = Err e /\ schema_error e.
Proof.
  destruct v; simpl; try (intros _; eexists; split; [ reflexivity | exact I ]).
  intros ->. eexists; split; [ reflexivity | exact I ].
Qed.

Lemma names_by_position (r : json) (pre items : list json) :
  getitem r "cosponsors" = Ok (JArr (pre ++ items)) ->
  mapM (cosponsor_name_at r) (seq (List.length pre) (List.length items)) =
  mapM (fun c => getitem c "name") items.
Proof.
  revert pre. induction items as [ | c items IH ]; intros pre Hcs; simpl.
  - reflexivity.
  - unfold cosponsor_name_at at 1. rewrite Hcs. simpl.
    rewrite nth_error_app2 by lia. rewrite Nat.sub_diag. simpl.
    destruct (getitem c "name") as [ n | e ]; simpl; auto.
    specialize (IH (pre ++ [c])).
    rewrite <- app_assoc, length_app in IH. simpl in IH.
    rewrite Nat.add_1_r in IH. now rewrite (IH Hcs).
Qed.

Lemma names_of_items (items : list json) :
  match all_some (map (field "name") items) with
  | Some ns => mapM (fun c => getitem c "name") items = Ok ns
  | None =>
      exists e, mapM (fun c => getitem c "name") items = Err e /\
                schema_error e
  end.
Proof.
  induction items as [ | c items IH ]; simpl; auto.
  destruct (field "name" c) as [ n | ] eqn:Hn.
  - rewrite (getitem_field_Some c n "name" Hn). simpl.
    destruct (all_some (map (field "name") items)) as [ ns | ]; simpl.
    + now rewrite IH.
    + destruct IH as (e & -> & He). simpl. eauto.
  - destruct (getitem_field_None c "name" Hn) as (e & -> & He).
    simpl. eauto.
Qed.

Lemma names_of_array (r : json) (items : list json) :
  getitem r "cosponsors" = Ok (JArr items) ->
  match all_some (map (field "name") items) with
  | Some ns =>
      mapM (cosponsor_name_at r) (seq 0 (List.length items)) = Ok ns
  | None =>
      exists e,
        mapM (cosponsor_name_at r) (seq 0 (List.length items)) = Err e /\
        schema_error e
  end.
Proof.
  intros Hcs. pose proof (names_by_position r [] items Hcs) as E.
  simpl in E. rewrite E. apply names_of_items.
Qed.

Lemma names_of_cosponsors (r cs : json) :
  getitem r "cosponsors" = Ok cs ->
  match cosponsor_names cs with
  | Some ns =>
      exists n, py_len cs = Ok n /\
                mapM (cosponsor_name_at r) (seq 0 n) = Ok ns
  | None =>
      exists e,
        (n <- py_len cs ;; mapM (cosponsor_name_at r) (seq 0 n)) = Err e /\
        schema_error e
  end.
Proof.
  intros Hcs. destruct cs as [ | b | lit | s | items | fields ]; simpl;
    try (eexists; split; [ reflexivity | exact I ]).
  - destruct s as [ | c s ]; simpl.
    + exists 0%nat. auto.
    + unfold cosponsor_name_at at 1. rewrite Hcs. simpl.
      eexists; split; [ reflexivity | exact I ].
  - pose proof (names_of_array r items Hcs) as H.
    destruct (all_some (map (field "name") items)); [ eauto | exact H ].
  - destruct fields as [ | f fields ]; simpl.
    + exists 0%nat. auto.
    + unfold cosponsor_name_at at 1. rewrite Hcs. simpl.
      eexists; split; [ reflexivity | exact I ].
Qed.

Lemma record_row_spec (r : json) :
  match expected_row r with
  | Some row => record_row r = Ok row
  | None => exists e, record_row r = Err e /\ schema_error e
  end.
Proof.
  unfold record_row, expected_row.
  destruct (field "sponsor" r) as [ sp | ] eqn:Hsp.
  2:{ destruct (getitem_field_None r "sponsor" Hsp) as (e & -> & He).
      simpl. eauto. }
  rewrite (getitem_field_Some r sp "sponsor" Hsp). simpl.
  destruct (field "name" sp) as [ sn | ] eqn:Hsn.
  2:{ destruct (getitem_field_None sp "name" Hsn) as (e & -> & He).
      simpl. destruct (field "cosponsors" r); [ | eauto ].
      destruct (field "bill_id" r); eauto. }
  rewrite (getitem_field_Some sp sn "name" Hsn). simpl.
  destruct (field "cosponsors" r) as [ cs | ] eqn:Hcs.
  2:{ destruct (getitem_field_None r "cosponsors" Hcs) as (e & -> & He).
      simpl. eauto. }
  pose proof (getitem_field_Some r cs "cosponsors" Hcs) as Gcs.
  rewrite Gcs. simpl.
  pose proof (names_of_cosponsors r cs Gcs) as Hnames.
  destruct (cosponsor_names cs) as [ ns | ].
  - destruct Hnames as (n & -> & Hloop). cbn [bind]. rewrite Hloop.
    cbn [bind].
    destruct (field "bill_id" r) as [ bill | ] eqn:Hb.
    + now rewrite (getitem_field_Some r bill "bill_id" Hb).
    + destruct (getitem_field_None r "bill_id" Hb) as (e & -> & He).
      simpl. eauto.
  - destruct Hnames as (e & Hloop & He).
    assert (G : exists e', (n <- py_len cs ;;
                            names <- mapM (cosponsor_name_at r) (seq 0 n) ;;
                            bill <- getitem r "bill_id" ;;
                            Ok (sn, names, bill)) = Err e' /\ schema_error e').
    { destruct (py_len cs) as [ n | e1 ]; simpl in *.
      - rewrite Hloop. simpl. eauto.
      - inversion Hloop; subst. eauto. }
    destruct (field "bill_id" r); exact G.
Qed.

Lemma mapM_record_row (rows : list json) :
  (forall r, In r rows -> expected_row r <> None) ->
  exists raw,
    mapM record_row rows = Ok raw /\
    map Some raw = map expected_row rows.
Proof.
  induction rows as [ | r rows IH ]; intros Hall; simpl.
  - exists []. auto.
  - pose proof (record_row_spec r) as Hr.
    destruct (expected_row r) as [ row | ] eqn:Er.
    + rewrite Hr. simpl.
      destruct IH as (raw & -> & Hmap); [ intros; apply Hall; now right | ].
      exists (row :: raw). simpl. split; congruence.
    + exfalso. apply (Hall r); simpl; auto.
Qed.

Lemma mapM_length {A B : Type} (f : A -> result B) (l : list A)
    (bs : list B) :
  mapM f l = Ok bs -> List.length bs = List.length l.
Proof.
  revert bs. induction l as [ | a l IH ]; simpl; intros bs H.
  - inversion H. reflexivity.
  - destruct (f a); simpl in H; [ | discriminate ].
    destruct (mapM f l) as [ bs' | ]; simpl in H; [ | discriminate ].
    inversion H. simpl. now rewrite (IH bs' eq_refl).
Qed.

(** A table is its three columns. *)
Lemma rows_by_columns (t raw : list json_row) :
  map sponsor_cell t = map sponsor_cell raw ->
  map cosponsor_cell t = map cosponsor_cell raw ->
  map bill_cell t = map bill_cell raw -> t = raw.
Proof.
  revert raw.
  induction t as [ | [[s c] b] t IH ]; intros [ | [[s' c'] b'] raw ];
    simpl; try discriminate; auto.
  unfold sponsor_cell, cosponsor_cell, bill_cell. simpl.
  intros S C B. inversion S; inversion C; inversion B; subst.
  f_equal. apply IH; auto.
Qed.



(** The table of a record with a number for a bill and one with [None]:
    the rows are made as expected, and [from_records] is free to turn
    the [None] into NaN. *)
Example table_of_numbers :
  map expected_row [record_number_bill; record_null_bill] =
    [ Some (JStr "Reid", [], JNum "1.5"); Some (JStr "12 Kirk", [], JNull) ] /\
  filter_json_to_frame object_frames [record_number_bill; record_null_bill] =
    Ok [ (JStr "Reid", [], JNum "1.5"); (JStr "12 Kirk", [], JNull) ] /\
  filter_json_to_frame float_frames [record_number_bill; record_null_bill] =
    Ok [ (JStr "Reid", [], JNum "1.5"); (JStr "12 Kirk", [], JNum "NaN") ].
Proof. repeat split. Qed.

Example record_row_good :
  record_row good_record =
  Ok (JStr "Reid", [JStr "12 Kirk"; JStr "Reid"], JStr "s7-113").
Proof. reflexivity. Qed.

Example record_row_null_sponsor :
  record_row (JObj [ ("sponsor", JNull); ("cosponsors", JArr []);
                     ("bill_id", JStr "s9-113") ]) = Err TypeError.
Proof. reflexivity. Qed.

(** * Further properties of the table builder *)

Lemma mapM_ext {A B : Type} (f g : A -> result B) (l : list A) :
  (forall a, f a = g a) -> mapM f l = mapM g l.
Proof.
  intros E. induction l as [ | a l IH ]; simpl; auto. now rewrite E, IH.
Qed.



(** X12: a row is read from the three fields [sponsor], [cosponsors]
    and [bill_id] of the record and from nothing else: two objects that
    agree on these three give the same row or the same failure, whatever
    other fields they hold and in whatever order. *)
Theorem record_row_reads_three_fields (fields1 fields2 : list (string * json)) :
  assoc "sponsor" fields1 = assoc "sponsor" fields2 ->
  assoc "cosponsors" fields1 = assoc "cosponsors" fields2 ->
  assoc "bill_id" fields1 = assoc "bill_id" fields2 ->
  record_row (JObj fields1) = record_row (JObj fields2).
Proof.
  intros Hs Hc Hb. unfold record_row.
  assert (E : forall i, cosponsor_name_at (JObj fields1) i =
                        cosponsor_name_at (JObj fields2) i).
  { intros i. unfold cosponsor_name_at. simpl. now rewrite Hc. }
  simpl. rewrite Hs, Hc, Hb.
  destruct (assoc "sponsor" fields2) as [ sp | ]; simpl; auto.
  destruct (getitem sp "name") as [ n | ]; simpl; auto.
  destruct (assoc "cosponsors" fields2) as [ cs | ]; simpl; auto.
  destruct (py_len cs) as [ k | ]; simpl; auto.
  now rewrite (mapM_ext _ _ (seq 0 k) E).
Qed.

Lemma record_row_reads_three_fields_witness :
  record_row
    (JObj [ ("sponsor", JObj [ ("name", JStr "Reid"); ("state", JStr "NV") ]);
            ("official_title", JStr "A bill");
            ("bill_id", JStr "s7-113");
            ("cosponsors", JArr [ JObj [ ("name", JStr "12 Kirk") ];
                                  JObj [ ("name", JStr "Reid") ] ]) ]) =
  record_row good_record.
Proof.
  apply record_row_reads_three_fields; reflexivity.
Defined.

(** * The fetcher *)

Lemma select_links_filter (hrefs links : list string) :
  select_links hrefs links = links ++ filter startswith_s hrefs.
Proof.
  revert links. induction hrefs as [ | x hrefs IH ]; intros links; simpl.
  - now rewrite app_nil_r.
  - destruct (startswith_s x); rewrite IH; auto. now rewrite <- app_assoc.
Qed.

Lemma in_firstn {A : Type} (n : nat) (l : list A) (x : A) :
  In x (firstn n l) -> In x l.
Proof.
  intros H. rewrite <- (firstn_skipn n l). apply in_or_app. auto.
Qed.

Section FetcherProperties.
Variable World : Type.
Variable requests_get_text : string -> World -> result string * World.
Variable findAll_a_href : string -> list string.
Variable json_loads : string -> result json.

Local Abbreviation single_vote := (get_single_vote World requests_get_text json_loads).
Local Abbreviation votes_of := (get_votes World requests_get_text json_loads).
Local Abbreviation links_of :=
  (get_links World requests_get_text findAll_a_href json_loads).

(** The requests of the comprehension: one per link, in order, up to
    and including the first that fails. *)
Lemma get_votes_log (links : list string) (st : net_state World) :
  exists fetched rest res w',
    get_votes World requests_get_text json_loads links st =
      (res, (w', snd st ++ map record_url fetched)) /\
    links = fetched ++ rest /\
    (forall votes, res = Ok votes ->
                   rest = [] /\ List.length votes = List.length links).
Proof.
  revert st. induction links as [ | link links IH ]; intros [w log].
  - exists [], [], (Ok []), w. simpl. unfold net_ret.
    rewrite app_nil_r.
    split; [ reflexivity | split; [ reflexivity | ] ].
    intros votes H. now inversion H.
  - simpl. unfold net_bind at 1, get_single_vote, net_bind at 1, http_get.
    simpl.
    destruct (requests_get_text (record_url link) w) as [ [ page | e ] w1 ].
    + unfold net_lift.
      destruct (json_loads page) as [ v | e ].
      * destruct (IH (w1, log ++ [record_url link]))
          as (fetched & rest & res & w' & E & -> & Hok).
        unfold net_bind. rewrite E. simpl in *.
        rewrite <- app_assoc. simpl.
        destruct res as [ vs | e ].
        -- exists (link :: fetched), rest, (Ok (v :: vs)), w'.
           unfold net_ret. split; [ reflexivity | split; [ reflexivity | ] ].
           intros votes H. inversion H; subst.
           destruct (Hok vs eq_refl) as [-> Hlen]. simpl. auto.
        -- exists (link :: fetched), rest, (Err e), w'.
           split; [ reflexivity | split; [ reflexivity | discriminate ] ].
      * exists [link], links, (Err e), w1.
        split; [ reflexivity | split; [ reflexivity | discriminate ] ].
    + exists [link], links, (Err e), w1.
      split; [ reflexivity | split; [ reflexivity | discriminate ] ].
Qed.

Lemma get_votes_cons (link : string) (rest : list string)
    (st : net_state World) :
  votes_of (link :: rest) st =
  match single_vote link st with
  | (Ok v, st1) =>
      match votes_of rest st1 with
      | (Ok vs, st2) => (Ok (v :: vs), st2)
      | (Err e, st2) => (Err e, st2)
      end
  | (Err e, st1) => (Err e, st1)
  end.
Proof.
  simpl. unfold net_bind at 1.
  destruct (single_vote link st) as [ [ v | e ] st1 ]; auto.
Qed.

Lemma get_single_vote_log (link : string) (st st1 : net_state World)
    (r : result json) :
  single_vote link st = (r, st1) -> snd st1 = snd st ++ [record_url link].
Proof.
  unfold get_single_vote, net_bind, http_get, net_lift.
  destruct (requests_get_text (record_url link) (fst st))
    as [ [ page | e ] w1 ]; intros H; inversion H; reflexivity.
Qed.

Lemma get_votes_failure (links : list string) (st st' : net_state World)
    (e : exn) :
  votes_of links st = (Err e, st') ->
  exists pre link post votes st_k,
    links = pre ++ link :: post /\
    votes_of pre st = (Ok votes, st_k) /\
    single_vote link st_k = (Err e, st') /\
    snd st' = snd st ++ map record_url (pre ++ [link]).
Proof.
  revert st. induction links as [ | link links IH ]; intros st H.
  - discriminate.
  - rewrite get_votes_cons in H.
    destruct (single_vote link st) as [ [ v | e0 ] st1 ] eqn:Hv.
    + destruct (votes_of links st1) as [ [ vs | e1 ] st2 ] eqn:Hvs;
        [ discriminate | ].
      inversion H; subst e1 st2.
      destruct (IH st1 Hvs) as (pre & l & post & votes & st_k &
                                -> & Hpre & Hl & Hlog).
      exists (link :: pre), l, post, (v :: votes), st_k.
      split; [ reflexivity | split; [ | split; [ exact Hl | ] ] ].
      * rewrite get_votes_cons, Hv, Hpre. reflexivity.
      * rewrite Hlog, (get_single_vote_log link st st1 _ Hv).
        rewrite <- app_assoc. reflexivity.
    + inversion H; subst e0 st1.
      exists [], link, links, [], st.
      split; [ reflexivity | split; [ reflexivity | split; [ exact Hv | ] ] ].
      apply (get_single_vote_log link st st' _ Hv).
Qed.
(** A request of a record that is answered and read. *)
Lemma get_single_vote_Ok (link : string) (st st1 : net_state World)
    (v : json) :
  single_vote link st = (Ok v, st1) ->
  exists body,
    requests_get_text (record_url link) (fst st) = (Ok body, fst st1) /\
    json_loads body = Ok v.
Proof.
  unfold get_single_vote, net_bind, http_get, net_lift.
  destruct (requests_get_text (record_url link) (fst st))
    as [ [ page | e ] w1 ]; intros H; inversion H; subst.
  exists page. auto.
Qed.

(** A comprehension that returns has requested every link, in order, and
    holds what [json.loads] made of each body. *)
Lemma get_votes_Ok (links : list string) (st st' : net_state World)
    (votes : list json) :
  votes_of links st = (Ok votes, st') ->
  snd st' = snd st ++ map record_url links /\
  Forall2 (fun link v =>
             exists w body w',
               requests_get_text (record_url link) w = (Ok body, w') /\
               json_loads body = Ok v) links votes.
Proof.
  revert st votes. induction links as [ | link links IH ]; intros st votes H.
  - simpl in H. unfold net_ret in H. inversion H; subst. simpl.
    rewrite app_nil_r. auto.
  - rewrite get_votes_cons in H.
    destruct (single_vote link st) as [ [ v | e0 ] st1 ] eqn:Hv;
      [ | discriminate ].
    destruct (votes_of links st1) as [ [ vs | e1 ] st2 ] eqn:Hvs;
      [ | discriminate ].
    inversion H; subst. destruct (IH st1 vs Hvs) as [Hlog Hall]. split.
    + rewrite Hlog, (get_single_vote_log link st st1 _ Hv).
      rewrite <- app_assoc. reflexivity.
    + constructor; auto.
      destruct (get_single_vote_Ok link st st1 v Hv) as (body & Hget & Hj).
      exists (fst st), body, (fst st1). auto.
Qed.

(** When the record of every link is answered and read, whatever the
    world, the comprehension returns. *)
Lemma get_votes_answered (links : list string) :
  (forall link w, In link links ->
     exists body w' v,
       requests_get_text (record_url link) w = (Ok body, w') /\
       json_loads body = Ok v) ->
  forall st, exists votes st', votes_of links st = (Ok votes, st').
Proof.
  induction links as [ | link links IH ]; intros Hall st.
  - exists [], st. reflexivity.
  - destruct (Hall link (fst st)) as (body & w1 & v & Hget & Hj);
      [ now left | ].
    destruct (IH (fun l w Hl => Hall l w (or_intror Hl))
                (w1, snd st ++ [record_url link])) as (vs & st2 & Hvs).
    exists (v :: vs), st2. rewrite get_votes_cons.
    unfold get_single_vote, net_bind, http_get, net_lift.
    rewrite Hget, Hj, Hvs. reflexivity.
Qed.


(** X13: how the fetcher fails. Either the request of the index page
    fails, and nothing else is requested; or the index page is read,
    the records of some of the first ten candidates are fetched, the
    next one fails in its request or in [json.loads], and that failure
    is returned at once: the candidates after it are not requested and
    the records fetched before it are dropped. *)
Theorem get_links_failure (st st' : net_state World) (e : exn) :
  links_of st = (Err e, st') ->
  (requests_get_text index_url (fst st) = (Err e, fst st') /\
   snd st' = snd st ++ [index_url]) \/
  (exists page w1 pre link post votes st_k,
     requests_get_text index_url (fst st) = (Ok page, w1) /\
     firstn 10 (select_links (findAll_a_href page) []) = pre ++ link :: post /\
     votes_of pre (w1, snd st ++ [index_url]) = (Ok votes, st_k) /\
     single_vote link st_k = (Err e, st') /\
     snd st' = snd st ++ index_url :: map record_url (pre ++ [link])).
Proof.
  unfold get_links, net_bind at 1, http_get.
  destruct (requests_get_text index_url (fst st)) as [ [ page | e0 ] w1 ].
  - intros H. right.
    destruct (get_votes_failure _ _ _ _ H)
      as (pre & link & post & votes & st_k & Hsplit & Hpre & Hl & Hlog).
    exists page, w1, pre, link, post, votes, st_k.
    repeat (split; [ assumption || reflexivity | ]).
    rewrite Hlog. simpl. now rewrite <- app_assoc.
  - intros H. inversion H. left. auto.
Qed.

(** X14: when every request is answered and the body of every record
    is read by [json.loads], the fetcher returns one record for each of
    the first ten candidates, after requesting the index page and then
    those ten records in order, and nothing else. *)
Theorem get_links_returns :
  (forall url w, exists body w',
     requests_get_text url w = (Ok body, w')) ->
  (forall link w body w',
     requests_get_text (record_url link) w = (Ok body, w') ->
     exists v, json_loads body = Ok v) ->
  forall st, exists page w1 votes w',
    requests_get_text index_url (fst st) = (Ok page, w1) /\
    let candidates := filter startswith_s (findAll_a_href page) in
    links_of st =
      (Ok votes,
       (w', snd st ++ index_url :: map record_url (firstn 10 candidates))) /\
    List.length votes = Nat.min 10 (List.length candidates).
Proof.
  intros Hreq Hjson.
  assert (Hall : forall links st, exists votes w',
            votes_of links st =
              (Ok votes, (w', snd st ++ map record_url links)) /\
            List.length votes = List.length links).
  { induction links as [ | link links IH ]; intros [w log].
    - exists [], w. simpl. unfold net_ret. now rewrite app_nil_r.
    - destruct (Hreq (record_url link) w) as (body & w1 & Hget).
      destruct (Hjson link w body w1 Hget) as (v & Hv).
      destruct (IH (w1, log ++ [record_url link])) as (vs & w2 & Hvs & Hlen).
      exists (v :: vs), w2. rewrite get_votes_cons.
      unfold get_single_vote, net_bind, http_get, net_lift. simpl.
      rewrite Hget, Hv, Hvs. simpl. rewrite <- app_assoc. simpl.
      split; [ reflexivity | now rewrite Hlen ]. }
  intros [w log]. destruct (Hreq index_url w) as (page & w1 & Hget).
  destruct (Hall (firstn 10 (filter startswith_s (findAll_a_href page)))
              (w1, log ++ [index_url])) as (votes & w' & Hvotes & Hlen).
  exists page, w1, votes, w'. split; [ exact Hget | ]. simpl. split.
  - unfold get_links, net_bind at 1, http_get. cbn [fst snd]. rewrite Hget.
    rewrite select_links_filter. cbn [app]. rewrite Hvotes. cbn [fst snd].
    now rewrite <- app_assoc.
  - rewrite Hlen. apply length_firstn.
Qed.

Lemma get_links_requests (st : net_state World) :
  exists res w' urls,
    links_of st = (res, (w', snd st ++ index_url :: urls)) /\
    (List.length urls <= 10)%nat /\
    (forall u, In u urls ->
               exists x, u = record_url x /\ startswith_s x = true) /\
    (forall votes, res = Ok votes -> List.length votes = List.length urls).
Proof.
  destruct st as [w log].
  unfold get_links, net_bind at 1, http_get. cbn [fst snd].
  destruct (requests_get_text index_url w) as [ [ page | e ] w1 ].
  - rewrite select_links_filter. cbn [app].
    destruct (get_votes_log
                (firstn 10 (filter startswith_s (findAll_a_href page)))
                (w1, log ++ [index_url]))
      as (fetched & rest & res & w' & E & Hsplit & Hok).
    exists res, w', (map record_url fetched). rewrite E. cbn [fst snd].
    rewrite <- app_assoc. cbn [app].
    assert (L : (List.length (fetched ++ rest) <= 10)%nat)
      by (rewrite <- Hsplit; apply firstn_le_length).
    rewrite length_app in L.
    split; [ reflexivity | split; [ rewrite length_map; lia | split ] ].
    + intros u Hu. apply in_map_iff in Hu. destruct Hu as (x & <- & Hx).
      exists x. split; auto.
      assert (Hin : In x (firstn 10 (filter startswith_s
                                       (findAll_a_href page)))).
      { rewrite Hsplit. apply in_or_app. auto. }
      apply in_firstn in Hin. now apply filter_In in Hin.
    + intros votes Hv. destruct (Hok votes Hv) as [Hrest Hlen].
      rewrite Hlen, Hsplit, Hrest, app_nil_r. now rewrite length_map.
  - exists (Err e), w1, []. simpl.
    split; [ reflexivity | split; [ lia | split ] ].
    + intros u [].
    + discriminate.
Qed.


(** X16: the table of the main flow has one row for each record
    fetched, at most ten; and the table builder runs after the fetcher
    has returned: a record with a missing field is found only when
    every record has been fetched, and the failure of the fetcher is
    the failure of the flow. *)
Theorem vote_table_rows (p : Pandas) (st st' : net_state World)
    (res : result (list json_row)) :
  vote_table World requests_get_text findAll_a_href json_loads p st
    = (res, st') ->
  match res with
  | Ok t =>
      exists votes,
        links_of st = (Ok votes, st') /\
        filter_json_to_frame p votes = Ok t /\
        List.length t = List.length votes /\ (List.length t <= 10)%nat
  | Err e =>
      links_of st = (Err e, st') \/
      exists votes,
        links_of st = (Ok votes, st') /\
        filter_json_to_frame p votes = Err e
  end.
Proof.
  unfold vote_table, net_bind, net_lift.
  destruct (get_links_requests st) as (r & w' & urls & E & L & _ & Hlen).
  rewrite E. destruct r as [ votes | e ]; intros H; inversion H; subst.
  - destruct (filter_json_to_frame p votes) as [ t | e ] eqn:Hf.
    + exists votes. split; [ reflexivity | split; [ exact Hf | ] ].
      unfold filter_json_to_frame in Hf.
      destruct (mapM record_row votes) as [ raw | ] eqn:Hraw;
        simpl in Hf; [ | discriminate ].
      inversion Hf. rewrite from_records_length.
      rewrite (mapM_length _ _ _ Hraw), (Hlen votes eq_refl). auto.
    + right. exists votes. auto.
  - left. reflexivity.
Qed.
End FetcherProperties.


(** The run of the fetcher in a world that answers every request with
    the page of the twelve anchors, and the run in one that answers
    three requests. *)
Example get_links_run :
  get_links unit always_answers (fun _ => twelve_hrefs)
    (fun _ => Ok good_record) (tt, []) =
    (Ok (repeat good_record 10),
     (tt, index_url ::
            map record_url [ "s1/"; "s10/"; "s100/"; "s1000/"; "s1001/";
                             "s1002/"; "s1003/"; "s1004/"; "s1005/";
                             "s1006/" ])) /\
  get_links nat three_answers (fun _ => twelve_hrefs)
    (fun _ => Ok good_record) (0%nat, []) =
    (Err (ConnectionError (record_url "s100/")),
     (4%nat, [ index_url; record_url "s1/"; record_url "s10/";
               record_url "s100/" ])).
Proof. split; vm_compute; reflexivity. Qed.

Lemma get_links_failure_witness :
  (three_answers index_url 0 =
     (Err (ConnectionError (record_url "s100/")), 4%nat) /\
   [index_url; record_url "s1/"; record_url "s10/"; record_url "s100/"] =
     [] ++ [index_url]) \/
  (exists page w1 pre link post votes st_k,
     three_answers index_url 0 = (Ok page, w1) /\
     firstn 10 (select_links twelve_hrefs []) = pre ++ link :: post /\
     get_votes nat three_answers (fun _ => Ok JNull) pre
       (w1, [] ++ [index_url]) = (Ok votes, st_k) /\
     get_single_vote nat three_answers (fun _ => Ok JNull) link st_k =
       (Err (ConnectionError (record_url "s100/")),
        (4%nat, [index_url; record_url "s1/"; record_url "s10/";
                 record_url "s100/"])) /\
     [index_url; record_url "s1/"; record_url "s10/"; record_url "s100/"] =
       [] ++ index_url :: map record_url (pre ++ [link])).
Proof.
  apply (get_links_failure nat three_answers (fun _ => twelve_hrefs)
           (fun _ => Ok JNull) (0%nat, [])
           (4%nat, [index_url; record_url "s1/"; record_url "s10/";
                    record_url "s100/"])
           (ConnectionError (record_url "s100/"))).
  vm_compute. reflexivity.
Defined.

Lemma get_links_returns_witness :
  exists page w1 votes w',
    always_answers index_url tt = (Ok page, w1) /\
    get_links unit always_answers (fun _ => twelve_hrefs)
      (fun _ => Ok good_record) (tt, []) =
      (Ok votes,
       (w', [] ++ index_url ::
              map record_url
                (firstn 10 (filter startswith_s twelve_hrefs)))) /\
    List.length votes = 10%nat.
Proof.
  destruct (get_links_returns unit always_answers (fun _ => twelve_hrefs)
              (fun _ => Ok good_record)) with (st := (tt, @nil string))
    as (page & w1 & votes & w' & Hget & Hrun & Hlen).
  - intros url w. exists "page", w. reflexivity.
  - intros link w body w' _. exists good_record. reflexivity.
  - exists page, w1, votes, w'. split; [ exact Hget | ].
    split; [ exact Hrun | exact Hlen ].
Defined.

Lemma vote_table_rows_witness :
  exists votes,
    get_links unit always_answers (fun _ => twelve_hrefs)
      (fun _ => Ok good_record) (tt, []) =
      (Ok votes,
       (tt, index_url ::
              map record_url (firstn 10 (filter startswith_s twelve_hrefs)))) /\
    filter_json_to_frame object_frames votes = Ok (repeat good_row 10) /\
    List.length (repeat good_row 10) = List.length votes /\
    (List.length (repeat good_row 10) <= 10)%nat.
Proof.
  apply (vote_table_rows unit always_answers (fun _ => twelve_hrefs)
           (fun _ => Ok good_record) object_frames (tt, [])
           (tt, index_url ::
                  map record_url
                    (firstn 10 (filter startswith_s twelve_hrefs)))
           (Ok (repeat good_row 10))).
  vm_compute. reflexivity.
Defined.
